(** * SHA-256 streaming hash of [sdk/c/hash/lib/sha256.c]

    A shallow embedding of the C translation unit and the properties of the
    streaming interface ([Hash_Init], [Hash_Update], [Hash_Final],
    [SHA256_Digest]) and of the compression function
    ([sha256_process_block]).

    Conventions of the embedding.
    - A [uint32_t] or [uint64_t] value is a [Z]; every operation that can
      leave the range of its C type is followed by the truncation the C type
      performs ([u32], [u64]).
    - A [uint8_t] is a [byte].
    - The buffer [ctx->message] is reached through a [uint32_t *] (by
      [Hash_Final] and [sha256_process_block]) and through a [uint8_t *] (by
      [Hash_Update]).  It is modelled as the 64 bytes of its storage; a word
      access is a little-endian load or store of four of them, which is the
      layout of the wasm32 target (and the one the unconditional [bswap_32]
      of the source assumes).
    - The translation unit is compiled with the macro definitions of the
      [#else] branch for [zkwasm_sha256_ch] and its five siblings; under
      [__wasm__] they are host functions whose bodies are not part of the
      file. *)

From Stdlib Require Import ZArith List Lia Bool String Ascii.
From Stdlib Require Init.Byte Strings.Byte.
From Stdlib Require Import Btauto.
From coqutil Require Import Byte Z.bitblast Z.PushPullMod Word.LittleEndianList.
Import ListNotations.
Local Open Scope Z_scope.

(** ** Machine integers *)

Definition u32 (x : Z) : Z := x mod 2 ^ 32.
Definition u64 (x : Z) : Z := x mod 2 ^ 64.

Definition add32 (x y : Z) : Z := u32 (x + y).
Definition shl32 (x n : Z) : Z := u32 (Z.shiftl x n).
Definition not32 (x : Z) : Z := u32 (Z.lnot x).

(** [#define sha256_block_size 64] and its two siblings. *)
Definition sha256_block_size : Z := 64.
Definition sha256_hash_size : Z := 32.
Definition sha224_hash_size : Z := 28.

(** [#define ROTR32(dword, n) ((dword) >> (n) ^ ((dword) << (32 - (n))))];
    in C [>>] and [<<] bind tighter than [^]. *)
Definition ROTR32 (dword n : Z) : Z :=
  Z.lxor (Z.shiftr dword n) (shl32 dword (32 - n)).

(** [__builtin_bswap32]: the four bytes of the word in reverse order. *)
Definition bswap_32 (x : Z) : Z := le_combine (rev (le_split 4 x)).

(** ** Arrays *)

(** [a[i] = v] on an array modelled as a list; the C code never writes out
    of range, and the model leaves the list alone there. *)
Fixpoint upd_nat {A : Type} (i : nat) (v : A) (l : list A) : list A :=
  match l, i with
  | [], _ => []
  | _ :: t, O => v :: t
  | x :: t, S j => x :: upd_nat j v t
  end.

Definition upd {A : Type} (i : Z) (v : A) (l : list A) : list A :=
  if i <? 0 then l else upd_nat (Z.to_nat i) v l.

(** [a[i]] on an array of words. *)
Definition get (l : list Z) (i : Z) : Z := nth (Z.to_nat i) l 0.

(** [p[i]] for [p] a pointer to [uint32_t]: little-endian load of bytes
    [4i .. 4i+3]. *)
Definition load32 (p : list byte) (i : Z) : Z :=
  le_combine (firstn 4 (skipn (Z.to_nat (4 * i)) p)).

(** [p[i] = v] for [p] a pointer to [uint32_t]: little-endian store into
    bytes [4i .. 4i+3]. *)
Definition store32 (p : list byte) (i : Z) (v : Z) : list byte :=
  firstn (Z.to_nat (4 * i)) p ++ le_split 4 v ++ skipn (Z.to_nat (4 * i) + 4) p.

(** ** Constants *)

Definition rhash_k256 : list Z :=
  [ 0x428A2F98; 0x71374491; 0xB5C0FBCF; 0xE9B5DBA5; 0x3956C25B; 0x59F111F1;
    0x923F82A4; 0xAB1C5ED5; 0xD807AA98; 0x12835B01; 0x243185BE; 0x550C7DC3;
    0x72BE5D74; 0x80DEB1FE; 0x9BDC06A7; 0xC19BF174; 0xE49B69C1; 0xEFBE4786;
    0x0FC19DC6; 0x240CA1CC; 0x2DE92C6F; 0x4A7484AA; 0x5CB0A9DC; 0x76F988DA;
    0x983E5152; 0xA831C66D; 0xB00327C8; 0xBF597FC7; 0xC6E00BF3; 0xD5A79147;
    0x06CA6351; 0x14292967; 0x27B70A85; 0x2E1B2138; 0x4D2C6DFC; 0x53380D13;
    0x650A7354; 0x766A0ABB; 0x81C2C92E; 0x92722C85; 0xA2BFE8A1; 0xA81A664B;
    0xC24B8B70; 0xC76C51A3; 0xD192E819; 0xD6990624; 0xF40E3585; 0x106AA070;
    0x19A4C116; 0x1E376C08; 0x2748774C; 0x34B0BCB5; 0x391C0CB3; 0x4ED8AA4A;
    0x5B9CCA4F; 0x682E6FF3; 0x748F82EE; 0x78A5636F; 0x84C87814; 0x8CC70208;
    0x90BEFFFA; 0xA4506CEB; 0xBEF9A3F7; 0xC67178F2 ].

Definition SHA256_H0 : list Z :=
  [ 0x6A09E667; 0xBB67AE85; 0x3C6EF372; 0xA54FF53A;
    0x510E527F; 0x9B05688C; 0x1F83D9AB; 0x5BE0CD19 ].

(** ** The round macros *)

(** [#define zkwasm_sha256_ch(x, y, z) ((z) ^ ((x) & ((y) ^ (z))))] *)
Definition zkwasm_sha256_ch (x y z : Z) : Z := Z.lxor z (Z.land x (Z.lxor y z)).

(** [#define zkwasm_sha256_maj(x, y, z) (((x) & (y)) ^ ((z) & ((x) ^ (y))))] *)
Definition zkwasm_sha256_maj (x y z : Z) : Z :=
  Z.lxor (Z.land x y) (Z.land z (Z.lxor x y)).

Definition zkwasm_sha256_lsigma0 (x : Z) : Z :=
  Z.lxor (Z.lxor (ROTR32 x 2) (ROTR32 x 13)) (ROTR32 x 22).
Definition zkwasm_sha256_lsigma1 (x : Z) : Z :=
  Z.lxor (Z.lxor (ROTR32 x 6) (ROTR32 x 11)) (ROTR32 x 25).
Definition zkwasm_sha256_ssigma0 (x : Z) : Z :=
  Z.lxor (Z.lxor (ROTR32 x 7) (ROTR32 x 18)) (Z.shiftr x 3).
Definition zkwasm_sha256_ssigma1 (x : Z) : Z :=
  Z.lxor (Z.lxor (ROTR32 x 17) (ROTR32 x 19)) (Z.shiftr x 10).

(** [RECALCULATE_W(W, n)]: the compound assignment to [W[n]].  Returns the
    new [W] and the value of the C expression, which is the value stored. *)
Definition RECALCULATE_W (W : list Z) (n : Z) : list Z * Z :=
  let v :=
    add32 (get W n)
      (add32
         (add32 (zkwasm_sha256_ssigma1 (get W (Z.land (n - 2) 15)))
            (get W (Z.land (n - 7) 15)))
         (zkwasm_sha256_ssigma0 (get W (Z.land (n - 15) 15)))) in
  (upd n v W, v).

(** [ROUND(a, b, c, d, e, f, g, h, k, data)] assigns to its arguments [d]
    and [h]; the model returns the two new values, in that order. *)
Definition ROUND (a b c d e f g h k data : Z) : Z * Z :=
  let T1 :=
    add32
      (add32 (add32 (add32 h (zkwasm_sha256_lsigma1 e)) (zkwasm_sha256_ch e f g)) k)
      data in
  (add32 d T1,
   add32 (add32 T1 (zkwasm_sha256_lsigma0 a)) (zkwasm_sha256_maj a b c)).

(** [ROUND_1_16]: [data] is the assignment [W[n] = bswap_32(block[n])].
    Returns the new [W], the new [d] and the new [h]. *)
Definition ROUND_1_16 (block : list byte) (W : list Z) (a b c d e f g h n : Z)
  : list Z * Z * Z :=
  let data := bswap_32 (load32 block n) in
  let W := upd n data W in
  let '(d, h) := ROUND a b c d e f g h (get rhash_k256 n) data in
  (W, d, h).

(** [ROUND_17_64]: [k] is the offset of the pointer [k] into [rhash_k256];
    [data] is [RECALCULATE_W(W, n)]. *)
Definition ROUND_17_64 (k : Z) (W : list Z) (a b c d e f g h n : Z)
  : list Z * Z * Z :=
  let '(W, data) := RECALCULATE_W W n in
  let '(d, h) := ROUND a b c d e f g h (get rhash_k256 (k + n)) data in
  (W, d, h).

(** ** The compression function *)

(** The local variables [A] .. [H] and [W] of [sha256_process_block]. *)
Definition locals : Type := Z * Z * Z * Z * Z * Z * Z * Z * list Z.

(** The sixteen [ROUND_1_16] statements. *)
Definition rounds_1_16 (block : list byte) (st : locals) : locals :=
  let '(A, B, C, D, E, F, G, H, W) := st in
  let '(W, D, H) := ROUND_1_16 block W A B C D E F G H 0 in
  let '(W, C, G) := ROUND_1_16 block W H A B C D E F G 1 in
  let '(W, B, F) := ROUND_1_16 block W G H A B C D E F 2 in
  let '(W, A, E) := ROUND_1_16 block W F G H A B C D E 3 in
  let '(W, H, D) := ROUND_1_16 block W E F G H A B C D 4 in
  let '(W, G, C) := ROUND_1_16 block W D E F G H A B C 5 in
  let '(W, F, B) := ROUND_1_16 block W C D E F G H A B 6 in
  let '(W, E, A) := ROUND_1_16 block W B C D E F G H A 7 in
  let '(W, D, H) := ROUND_1_16 block W A B C D E F G H 8 in
  let '(W, C, G) := ROUND_1_16 block W H A B C D E F G 9 in
  let '(W, B, F) := ROUND_1_16 block W G H A B C D E F 10 in
  let '(W, A, E) := ROUND_1_16 block W F G H A B C D E 11 in
  let '(W, H, D) := ROUND_1_16 block W E F G H A B C D 12 in
  let '(W, G, C) := ROUND_1_16 block W D E F G H A B C 13 in
  let '(W, F, B) := ROUND_1_16 block W C D E F G H A B 14 in
  let '(W, E, A) := ROUND_1_16 block W B C D E F G H A 15 in
  (A, B, C, D, E, F, G, H, W).

(** The body of the [for] loop: sixteen [ROUND_17_64] statements. *)
Definition rounds_17_64 (k : Z) (st : locals) : locals :=
  let '(A, B, C, D, E, F, G, H, W) := st in
  let '(W, D, H) := ROUND_17_64 k W A B C D E F G H 0 in
  let '(W, C, G) := ROUND_17_64 k W H A B C D E F G 1 in
  let '(W, B, F) := ROUND_17_64 k W G H A B C D E F 2 in
  let '(W, A, E) := ROUND_17_64 k W F G H A B C D E 3 in
  let '(W, H, D) := ROUND_17_64 k W E F G H A B C D 4 in
  let '(W, G, C) := ROUND_17_64 k W D E F G H A B C 5 in
  let '(W, F, B) := ROUND_17_64 k W C D E F G H A B 6 in
  let '(W, E, A) := ROUND_17_64 k W B C D E F G H A 7 in
  let '(W, D, H) := ROUND_17_64 k W A B C D E F G H 8 in
  let '(W, C, G) := ROUND_17_64 k W H A B C D E F G 9 in
  let '(W, B, F) := ROUND_17_64 k W G H A B C D E F 10 in
  let '(W, A, E) := ROUND_17_64 k W F G H A B C D E 11 in
  let '(W, H, D) := ROUND_17_64 k W E F G H A B C D 12 in
  let '(W, G, C) := ROUND_17_64 k W D E F G H A B C 13 in
  let '(W, F, B) := ROUND_17_64 k W C D E F G H A B 14 in
  let '(W, E, A) := ROUND_17_64 k W B C D E F G H A 15 in
  (A, B, C, D, E, F, G, H, W).

(** [for (i = 16, k = &rhash_k256[16]; i < 64; i += 16, k += 16)]. *)
Fixpoint rounds_loop (fuel : nat) (i k : Z) (st : locals) : locals :=
  match fuel with
  | O => st
  | S fuel =>
      if i <? 64 then rounds_loop fuel (i + 16) (k + 16) (rounds_17_64 k st)
      else st
  end.

(** [sha256_process_block(hash, block)]; returns the new content of [hash].
    The local array [W] is not initialised by the C code, which writes every
    entry before it reads it; the model starts it at sixteen zeros. *)
Definition sha256_process_block (hash : list Z) (block : list byte) : list Z :=
  let A := get hash 0 in
  let B := get hash 1 in
  let C := get hash 2 in
  let D := get hash 3 in
  let E := get hash 4 in
  let F := get hash 5 in
  let G := get hash 6 in
  let H := get hash 7 in
  let W := repeat 0 16 in
  let st := rounds_1_16 block (A, B, C, D, E, F, G, H, W) in
  let '(A, B, C, D, E, F, G, H, _) := rounds_loop 4 16 16 st in
  [ add32 (get hash 0) A; add32 (get hash 1) B;
    add32 (get hash 2) C; add32 (get hash 3) D;
    add32 (get hash 4) E; add32 (get hash 5) F;
    add32 (get hash 6) G; add32 (get hash 7) H ].

(** ** The context and the effects of the interface functions *)

(** [struct sha256_ctx]; [message] holds the 64 bytes of [uint32_t
    message[16]]. *)
Record sha256_ctx : Type := mk_ctx {
  message : list byte;
  length : Z;
  hash : list Z;
  digest_length : Z
}.

(** The interface functions work on the one static context [sctx] through
    the pointer [ctx], and hand blocks to [sha256_process_block].  A
    computation is a function of the context that returns a value, the new
    context and the blocks it has passed to [sha256_process_block], in
    order. *)
Definition M (A : Type) : Type := sha256_ctx -> A * sha256_ctx * list (list byte).

Definition ret {A : Type} (a : A) : M A := fun c => (a, c, []).

Definition bind {A B : Type} (m : M A) (k : A -> M B) : M B :=
  fun c =>
    let '(a, c1, t1) := m c in
    let '(b, c2, t2) := k a c1 in
    (b, c2, t1 ++ t2).

Notation "x <- m ;; k" := (bind m (fun x => k))
  (at level 61, m at next level, right associativity).
Notation "m ;; k" := (bind m (fun _ => k))
  (at level 61, right associativity).

Definition get_ctx : M sha256_ctx := fun c => (c, c, []).

Definition set_message (m : list byte) : M unit :=
  fun c => (tt, mk_ctx m (length c) (hash c) (digest_length c), []).
Definition set_length (n : Z) : M unit :=
  fun c => (tt, mk_ctx (message c) n (hash c) (digest_length c), []).
Definition set_hash (h : list Z) : M unit :=
  fun c => (tt, mk_ctx (message c) (length c) h (digest_length c), []).
Definition set_digest_length (n : Z) : M unit :=
  fun c => (tt, mk_ctx (message c) (length c) (hash c) n, []).

(** The call [sha256_process_block(ctx->hash, block)].  The callee reads
    sixteen words through [block]; the record of the call keeps these 64
    bytes. *)
Definition process_block (block : list byte) : M unit :=
  fun c =>
    (tt,
     mk_ctx (message c) (length c) (sha256_process_block (hash c) block)
       (digest_length c),
     [firstn 64 block]).

Definition result {A : Type} (r : A * sha256_ctx * list (list byte)) : A :=
  fst (fst r).
Definition final_ctx {A : Type} (r : A * sha256_ctx * list (list byte)) : sha256_ctx :=
  snd (fst r).
Definition compressed {A : Type} (r : A * sha256_ctx * list (list byte))
  : list (list byte) := snd r.

(** ** Loops *)

Definition u8 (x : Z) : Z := x mod 2 ^ 8.

(** [for (uint8_t i = 0; i < bound; i++) body], entered with [i].  The
    callers give 256 as [fuel], which lets the loop run to its exit whenever
    [bound <= 255]; with a larger bound the C loop never ends ([i] wraps
    round to 0), and the model stops after 256 passes. *)
Fixpoint for_u8 {T : Type} (fuel : nat) (i bound : Z) (body : Z -> T -> T) (s : T) : T :=
  match fuel with
  | O => s
  | S fuel =>
      if i <? bound then for_u8 fuel (u8 (i + 1)) bound body (body i s) else s
  end.

(** [while (index < bound) ctx->message[index++] = 0;] returns the buffer
    and the final [index]. *)
Fixpoint zero_words (fuel : nat) (index bound : Z) (m : list byte) : list byte * Z :=
  match fuel with
  | O => (m, index)
  | S fuel =>
      if index <? bound then zero_words fuel (index + 1) bound (store32 m index 0)
      else (m, index)
  end.

(** [while (size >= sha256_block_size)] of [Hash_Update]; [msg] is the input
    from the cursor on.  Returns the final [size] and [msg]. *)
Fixpoint update_blocks (fuel : nat) (size : Z) (msg : list byte) : M (Z * list byte) :=
  match fuel with
  | O => ret (size, msg)
  | S fuel =>
      if sha256_block_size <=? size then
        process_block msg;;
        update_blocks fuel (size - sha256_block_size)
          (skipn (Z.to_nat sha256_block_size) msg)
      else ret (size, msg)
  end.

(** [msg[i]] for a pointer to bytes. *)
Definition byte_at (msg : list byte) (i : Z) : byte :=
  nth (Z.to_nat i) msg Byte.x00.

(** ** The interface functions *)

(** [sha256_init()].  Each pass of the loop, for [i] = 0, 2, 4, 6, copies
    the words [i] and [i + 1] of [SHA256_H0] in one 64-bit assignment. *)
Definition sha256_init : M unit :=
  set_length 0;;
  set_digest_length sha256_hash_size;;
  c <- get_ctx;;
  set_hash
    (fold_left
       (fun h i => upd (i + 1) (get SHA256_H0 (i + 1)) (upd i (get SHA256_H0 i) h))
       [0; 2; 4; 6] (hash c)).

Definition Hash_Init (bits : Z) : M unit := sha256_init.

(** [Hash_Update(size, data)].  The [return] inside the first [if] is the
    [None] of the first block. *)
Definition Hash_Update (size : Z) (data : list byte) : M unit :=
  c <- get_ctx;;
  let msg := data in
  let index := Z.land (u32 (length c)) 63 in
  set_length (u64 (length c + size));;
  r <- (if index =? 0 then ret (Some (size, msg))
        else
          let left := sha256_block_size - index in
          let end_ := if size <? left then size else left in
          c <- get_ctx;;
          set_message
            (for_u8 256 0 end_ (fun i m => upd (index + i) (byte_at msg i) m)
               (message c));;
          if size <? left then ret None
          else
            c <- get_ctx;;
            process_block (message c);;
            ret (Some (size - left, skipn (Z.to_nat left) msg)));;
  match r with
  | None => ret tt
  | Some (size, msg) =>
      r <- update_blocks (Z.to_nat size) size msg;;
      let '(size, msg) := r in
      if size =? 0 then ret tt
      else
        c <- get_ctx;;
        set_message
          (for_u8 256 0 size (fun i m => upd i (byte_at msg i) m) (message c))
  end.

(** The bytes of [ctx->hash] as [Hash_Final] reads them through a pointer to
    [uint8_t]. *)
Definition hash_bytes (h : list Z) : list byte := flat_map (le_split 4) h.

(** [Hash_Final(output)]; returns the bytes written to [output]. *)
Definition Hash_Final : M (list byte) :=
  c <- get_ctx;;
  let index := Z.shiftr (Z.land (u32 (length c)) 63) 2 in
  let shift := Z.land (u32 (length c)) 3 * 8 in
  set_message
    (store32 (message c) index
       (Z.land (load32 (message c) index) (not32 (shl32 0xFFFFFFFF shift))));;
  c <- get_ctx;;
  set_message
    (store32 (message c) index (Z.lxor (load32 (message c) index) (shl32 0x80 shift)));;
  let index := index + 1 in
  index <- (if 14 <? index then
              c <- get_ctx;;
              let '(m, index) := zero_words 16 index 16 (message c) in
              set_message m;;
              process_block m;;
              ret 0
            else ret index);;
  c <- get_ctx;;
  let '(m, index) := zero_words 16 index 14 (message c) in
  set_message m;;
  c <- get_ctx;;
  set_message (store32 (message c) 14 (bswap_32 (u32 (Z.shiftr (length c) 29))));;
  c <- get_ctx;;
  set_message (store32 (message c) 15 (bswap_32 (u32 (u64 (Z.shiftl (length c) 3)))));;
  c <- get_ctx;;
  process_block (message c);;
  c <- get_ctx;;
  set_hash
    (fold_left (fun h i => upd i (bswap_32 (get h i)) h) [7; 6; 5; 4; 3; 2; 1; 0]
       (hash c));;
  c <- get_ctx;;
  ret (for_u8 256 0 (digest_length c)
         (fun i output => output ++ [byte_at (hash_bytes (hash c)) i]) []).

Definition SHA256_Digest (size : Z) (msg : list byte) : M (list byte) :=
  Hash_Init 256;;
  Hash_Update size msg;;
  Hash_Final.

(** ** Reading results *)

Definition hex_digit (n : Z) : ascii :=
  nth (Z.to_nat n) (list_ascii_of_string "0123456789abcdef") "?"%char.

Fixpoint to_hex (bs : list byte) : string :=
  match bs with
  | [] => EmptyString
  | b :: bs =>
      String (hex_digit (byte.unsigned b / 16))
        (String (hex_digit (byte.unsigned b mod 16)) (to_hex bs))
  end.

Definition bytes_of_string (s : string) : list byte := list_byte_of_string s.

(** A context as the static storage of the program starts: all zero. *)
Definition zero_ctx : sha256_ctx :=
  mk_ctx (repeat Byte.x00 64) 0 (repeat 0 8) 0.

(** A sequence of [Hash_Update] calls, one per chunk, each with the size of
    its chunk. *)
Fixpoint Hash_Updates (chunks : list (list byte)) : M unit :=
  match chunks with
  | [] => ret tt
  | chunk :: chunks =>
      Hash_Update (Z.of_nat (List.length chunk)) chunk;;
      Hash_Updates chunks
  end.

(** The storage of [ctx->message] is 64 bytes. *)
Definition buffer_ok (c : sha256_ctx) : Prop := List.length (message c) = 64%nat.

(** The storage of the context: 64 bytes of buffer and eight words of
    state. *)
Definition ctx_ok (c : sha256_ctx) : Prop :=
  List.length (message c) = 64%nat /\ List.length (hash c) = 8%nat.

(** The bytes held in the buffer: the first [length mod 64] bytes of
    [message]. *)
Definition pending (c : sha256_ctx) : list byte :=
  firstn (Z.to_nat (length c mod 64)) (message c).

(** A value of type [uint32_t]. *)
Definition is_u32 (x : Z) : Prop := 0 <= x < 2 ^ 32.

(** ** The message as a sequence of blocks *)

Fixpoint blocks_aux (n : nat) (M : list byte) : list (list byte) :=
  match n with
  | O => []
  | S n => firstn 64 M :: blocks_aux n (skipn 64 M)
  end.

(** The complete 64-byte blocks of [M], in order, and the bytes after them. *)
Definition blocks (M : list byte) : list (list byte) :=
  blocks_aux (List.length M / 64) M.
Definition tail (M : list byte) : list byte :=
  skipn (64 * (List.length M / 64)) M.

(** The chaining value after the complete blocks of [M]. *)
Definition chaining_value (M : list byte) : list Z :=
  fold_left sha256_process_block (blocks M) SHA256_H0.

(** The invariant of the context after the bytes [M] have been fed to it. *)
Definition ctx_inv (M : list byte) (c : sha256_ctx) : Prop :=
  length c = u64 (Z.of_nat (List.length M)) /\
  length c mod 64 = Z.of_nat (List.length (tail M)) /\
  firstn (List.length (tail M)) (message c) = tail M /\
  hash c = chaining_value M /\
  digest_length c = 32 /\
  buffer_ok c.

(** ** The padding of the last block, as the finalizer is specified

    With [n] valid bytes in the buffer: the valid bytes, the byte [0x80],
    zeros up to byte 56 of a block, then the length in bits as a 64-bit
    big-endian integer.  When [n >= 56] the zeros run to the end of the
    block and a second block of 56 zeros and the length follows. *)

Definition be64 (v : Z) : list byte := rev (le_split 8 v).

Definition final_blocks (c : sha256_ctx) : list (list byte) :=
  let n := Z.to_nat (length c mod 64) in
  let valid := pending c in
  let bits := be64 (u64 (length c * 8)) in
  if (n <? 56)%nat then
    [valid ++ [Byte.x80] ++ repeat Byte.x00 (55 - n) ++ bits]
  else
    [valid ++ [Byte.x80] ++ repeat Byte.x00 (63 - n);
     repeat Byte.x00 56 ++ bits].

(** ** The data flow of the schedule buffer

    The [data] arguments of the 64 uses of [ROUND] in
    [sha256_process_block], in order: sixteen loads, then three passes of
    [RECALCULATE_W] over the circular buffer. *)

Definition regs : Type := Z * Z * Z * Z * Z * Z * Z * Z.

(** One use of [ROUND] on the working variables in their current roles,
    followed by the renaming that the next macro line performs. *)
Definition round_fn (s : regs) (kw : Z * Z) : regs :=
  let '(a, b, c, d, e, f, g, h) := s in
  let '(d1, h1) := ROUND a b c d e f g h (fst kw) (snd kw) in
  (h1, a, b, c, d1, e, f, g).

Definition idx16 : list Z := [0; 1; 2; 3; 4; 5; 6; 7; 8; 9; 10; 11; 12; 13; 14; 15].

Fixpoint load_pass (block : list byte) (ns : list Z) (W : list Z) : list Z * list Z :=
  match ns with
  | [] => (W, [])
  | n :: ns =>
      let data := bswap_32 (load32 block n) in
      let '(W2, vs) := load_pass block ns (upd n data W) in
      (W2, data :: vs)
  end.

Fixpoint sched_pass (ns : list Z) (W : list Z) : list Z * list Z :=
  match ns with
  | [] => (W, [])
  | n :: ns =>
      let '(W1, data) := RECALCULATE_W W n in
      let '(W2, vs) := sched_pass ns W1 in
      (W2, data :: vs)
  end.

Definition round_inputs (block : list byte) : list Z :=
  let '(W, d0) := load_pass block idx16 (repeat 0 16) in
  let '(W, d1) := sched_pass idx16 W in
  let '(W, d2) := sched_pass idx16 W in
  let '(W, d3) := sched_pass idx16 W in
  d0 ++ d1 ++ d2 ++ d3.

(** ** The compression function as the specification words it *)

Module FIPS.

Definition ROTR (x n : Z) : Z :=
  u32 (Z.lor (Z.shiftr x n) (Z.shiftl x (32 - n))).

Definition Ch (x y z : Z) : Z := Z.lxor (Z.land x y) (Z.land (not32 x) z).
Definition Maj (x y z : Z) : Z :=
  Z.lxor (Z.lxor (Z.land x y) (Z.land x z)) (Z.land y z).

Definition Sigma0 (x : Z) : Z := Z.lxor (Z.lxor (ROTR x 2) (ROTR x 13)) (ROTR x 22).
Definition Sigma1 (x : Z) : Z := Z.lxor (Z.lxor (ROTR x 6) (ROTR x 11)) (ROTR x 25).
Definition sigma0 (x : Z) : Z := Z.lxor (Z.lxor (ROTR x 7) (ROTR x 18)) (Z.shiftr x 3).
Definition sigma1 (x : Z) : Z := Z.lxor (Z.lxor (ROTR x 17) (ROTR x 19)) (Z.shiftr x 10).

(** The constants, as the specification characterises them: the first 32
    bits of the fractional parts of the cube roots of the first 64 primes
    (round constants) and of the square roots of the first 8 primes (initial
    value of SHA-256); for SHA-224, the second 32 bits of the fractional
    parts of the square roots of the ninth to sixteenth primes. *)
Definition is_prime (p : Z) : bool :=
  (2 <=? p) && forallb (fun d => negb (p mod d =? 0)) (map Z.of_nat (seq 2 (Z.to_nat p - 2))).

Definition primes (n : nat) : list Z :=
  firstn n (filter is_prime (map Z.of_nat (seq 2 400))).

(** The integer cube root, one bit at a time from bit 39 down. *)
Definition icbrt (x : Z) : Z :=
  fold_left (fun r b => if (r + 2 ^ b) ^ 3 <=? x then r + 2 ^ b else r)
    (map Z.of_nat (rev (seq 0 40))) 0.

Definition K : list Z := map (fun p => icbrt (p * 2 ^ 96) mod 2 ^ 32) (primes 64).
Definition H0_256 : list Z := map (fun p => Z.sqrt (p * 2 ^ 64) mod 2 ^ 32) (primes 8).
Definition H0_224 : list Z :=
  map (fun p => Z.sqrt (p * 2 ^ 128) mod 2 ^ 32) (skipn 8 (primes 16)).

(** Step 1: a 32-bit big-endian word. *)
Definition be_word (bs : list byte) : Z :=
  fold_left (fun acc b => acc * 256 + byte.unsigned b) bs 0.

Definition block_words (block : list byte) : list Z :=
  map (fun t => be_word (firstn 4 (skipn (4 * t) block))) (seq 0 16).

(** Step 2: the 64-entry schedule; each pass appends [W[t]] for
    [t = length W]. *)
Fixpoint expand (n : nat) (W : list Z) : list Z :=
  match n with
  | O => W
  | S n =>
      let t := List.length W in
      expand n
        (W ++ [u32 (sigma1 (nth (t - 2) W 0) + nth (t - 7) W 0
                    + sigma0 (nth (t - 15) W 0) + nth (t - 16) W 0)])
  end.

Definition schedule (block : list byte) : list Z := expand 48 (block_words block).

(** Step 4: one round, then the cyclic shift of the eight variables. *)
Definition round (s : regs) (kw : Z * Z) : regs :=
  let '(a, b, c, d, e, f, g, h) := s in
  let T1 := u32 (h + Sigma1 e + Ch e f g + fst kw + snd kw) in
  let d := u32 (d + T1) in
  let h := u32 (T1 + Sigma0 a + Maj a b c) in
  (h, a, b, c, d, e, f, g).

(** Steps 3 to 5. *)
Definition compress (state : list Z) (block : list byte) : list Z :=
  match state with
  | [a; b; c; d; e; f; g; h] =>
      let '(a', b', c', d', e', f', g', h') :=
        fold_left round (combine K (schedule block)) (a, b, c, d, e, f, g, h) in
      [ u32 (a + a'); u32 (b + b'); u32 (c + c'); u32 (d + d');
        u32 (e + e'); u32 (f + f'); u32 (g + g'); u32 (h + h') ]
  | _ => state
  end.

End FIPS.

(** ** Auxiliary notions of the proofs *)

(** The eight working variables hold values of type [uint32_t]. *)
Definition regs_ok (s : regs) : Prop :=
  let '(a, b, c, d, e, f, g, h) := s in
  is_u32 a /\ is_u32 b /\ is_u32 c /\ is_u32 d /\
  is_u32 e /\ is_u32 f /\ is_u32 g /\ is_u32 h.

(** The 64 rounds of [sha256_process_block] on the state [hash], fed with
    the round inputs [inputs]. *)
Definition rounds_with (inputs : list Z) (hash : list Z) : list Z :=
  let '(A, B, C, D, E, F, G, H) :=
    fold_left round_fn (combine rhash_k256 inputs)
      (get hash 0, get hash 1, get hash 2, get hash 3,
       get hash 4, get hash 5, get hash 6, get hash 7) in
  [ add32 (get hash 0) A; add32 (get hash 1) B;
    add32 (get hash 2) C; add32 (get hash 3) D;
    add32 (get hash 4) E; add32 (get hash 5) F;
    add32 (get hash 6) G; add32 (get hash 7) H ].

(** The circular buffer [W] before round [t] of the block [block]: slot
    [i mod 16] holds entry [i] of the full schedule, for the sixteen [i]
    before [t]. *)
Definition circ (block : list byte) (t : Z) (W : list Z) : Prop :=
  List.length W = 16%nat /\
  forall i, t - 16 <= i < t -> get W (i mod 16) = get (FIPS.schedule block) i.

(** ** The SHA-224 variant of the specification *)

(** Modelled from the spec: the initial hash value of SHA-224, which the
    specification requires [Init(224)] to load ("the standard eight 32-bit IV
    constants for that variant"); the source has no such table.  The values
    are those of FIPS 180-4, section 5.3.2, and [FIPS.H0_224] computes
    them. *)
Definition SHA224_H0 : list Z :=
  [ 0xC1059ED8; 0x367CD507; 0x3070DD17; 0xF70E5939;
    0xFFC00B31; 0x68581511; 0x64F98FA7; 0xBEFA4FA4 ].

(** The chunks are of sizes that fit the [uint32_t] parameter [size]. *)
Definition sizes_ok (chunks : list (list byte)) : Prop :=
  Forall (fun chunk => Z.of_nat (List.length chunk) < 2 ^ 32) chunks.

(** A word read as a big-endian quantity. *)
Definition be32 (w : Z) : Z := bswap_32 w.

(** ** The hash function of the standard

    The source presents itself as an implementation of the hash functions
    of FIPS 180.  Section 5.1.1 of the standard pads a message of [l] bits
    with the bit 1, then [k] zero bits, [k] the least non-negative solution
    of [l + 1 + k = 448 (mod 512)], then [l] as a 64-bit big-endian integer;
    for a message of [n] bytes that is the byte [0x80], [(55 - n) mod 64]
    zero bytes and the eight bytes of [8 * n].  Section 6.2.2 runs the
    compression function over the 64-byte blocks of the padded message,
    from the initial hash value, and the digest is the eight words of the
    last value, each most significant byte first. *)

(** The four bytes of a word, most significant first. *)
Definition be_bytes (w : Z) : list byte := rev (le_split 4 w).

Module Standard.

Definition padding (n : nat) : list byte :=
  [Byte.x80] ++ repeat Byte.x00 (Z.to_nat ((55 - Z.of_nat n) mod 64))
    ++ be64 (8 * Z.of_nat n).

Definition pad (M : list byte) : list byte := M ++ padding (List.length M).

Definition sha256 (M : list byte) : list byte :=
  flat_map be_bytes (fold_left FIPS.compress (blocks (pad M)) FIPS.H0_256).

End Standard.

(** ** Example inputs *)

(** A context left over from an earlier computation: five bytes buffered. *)
Definition used_ctx : sha256_ctx := mk_ctx (repeat Byte.xff 64) 5 SHA256_H0 32.

(** A context with arbitrary content in every field. *)
Definition stale_ctx : sha256_ctx :=
  mk_ctx (repeat Byte.xff 64) 12345 [1; 2; 3; 4; 5; 6; 7; 8] 28.

Definition abc : list byte := bytes_of_string "abc".

(** The padded block of the message "abc". *)
Definition abc_block : list byte :=
  abc ++ [Byte.x80] ++ repeat Byte.x00 52 ++ be64 24.

(** Two contexts with the same three valid bytes in the buffer and different
    stale bytes after them. *)
Definition abc_ctx_ff : sha256_ctx := mk_ctx (abc ++ repeat Byte.xff 61) 3 SHA256_H0 32.
Definition abc_ctx_00 : sha256_ctx := mk_ctx (abc ++ repeat Byte.x00 61) 3 SHA256_H0 32.

(** * Lemmas *)

(** ** Machine integers *)

Lemma u32_range x : is_u32 (u32 x).
Proof. unfold is_u32, u32. apply Z.mod_pos_bound. reflexivity. Qed.

Lemma u32_small x : is_u32 x -> u32 x = x.
Proof. unfold is_u32, u32. intros. apply Z.mod_small. assumption. Qed.

Lemma add32_range x y : is_u32 (add32 x y).
Proof. apply u32_range. Qed.

Lemma add32_u32_l x y : add32 (u32 x) y = u32 (x + y).
Proof. unfold add32, u32. apply Zplus_mod_idemp_l. Qed.

Lemma add32_u32_r x y : add32 x (u32 y) = u32 (x + y).
Proof. unfold add32, u32. apply Zplus_mod_idemp_r. Qed.

Lemma u32_add_u32_l x y : u32 (u32 x + y) = u32 (x + y).
Proof. apply add32_u32_l. Qed.

Lemma u32_add_u32_r x y : u32 (x + u32 y) = u32 (x + y).
Proof. apply add32_u32_r. Qed.

(** Bitwise equalities: bit by bit, with the bits at negative positions
    cleared. *)
Ltac bits :=
  Z.bitblast;
  repeat match goal with
    | |- context [Z.testbit ?x ?l] => rewrite (Z.testbit_neg_r x l) by lia
    end;
  try (rewrite ?andb_false_r, ?andb_false_l, ?orb_false_r, ?xorb_false_r; reflexivity);
  try btauto.

(** ** The macros against the functions of the standard *)

Lemma ROTR32_ROTR x n :
  is_u32 x -> 0 < n < 32 -> ROTR32 x n = FIPS.ROTR x n.
Proof.
  unfold is_u32, ROTR32, FIPS.ROTR, shl32, u32. intros Hx Hn.
  rewrite <- (Z.mod_small x (2 ^ 32)) by assumption.
  bits.
Qed.

Lemma ch_Ch x y z : is_u32 z -> zkwasm_sha256_ch x y z = FIPS.Ch x y z.
Proof.
  unfold is_u32, zkwasm_sha256_ch, FIPS.Ch, not32, u32. intros Hz.
  rewrite <- (Z.mod_small z (2 ^ 32)) by assumption.
  Z.bitblast.
Qed.

Lemma maj_Maj x y z : zkwasm_sha256_maj x y z = FIPS.Maj x y z.
Proof. unfold zkwasm_sha256_maj, FIPS.Maj. Z.bitblast. Qed.

Lemma lsigma0_Sigma0 x : is_u32 x -> zkwasm_sha256_lsigma0 x = FIPS.Sigma0 x.
Proof.
  intros Hx. unfold zkwasm_sha256_lsigma0, FIPS.Sigma0.
  rewrite !ROTR32_ROTR by (assumption || lia). reflexivity.
Qed.

Lemma lsigma1_Sigma1 x : is_u32 x -> zkwasm_sha256_lsigma1 x = FIPS.Sigma1 x.
Proof.
  intros Hx. unfold zkwasm_sha256_lsigma1, FIPS.Sigma1.
  rewrite !ROTR32_ROTR by (assumption || lia). reflexivity.
Qed.

Lemma ssigma0_sigma0 x : is_u32 x -> zkwasm_sha256_ssigma0 x = FIPS.sigma0 x.
Proof.
  intros Hx. unfold zkwasm_sha256_ssigma0, FIPS.sigma0.
  rewrite !ROTR32_ROTR by (assumption || lia). reflexivity.
Qed.

Lemma ssigma1_sigma1 x : is_u32 x -> zkwasm_sha256_ssigma1 x = FIPS.sigma1 x.
Proof.
  intros Hx. unfold zkwasm_sha256_ssigma1, FIPS.sigma1.
  rewrite !ROTR32_ROTR by (assumption || lia). reflexivity.
Qed.

(** ** One round *)

Lemma round_fn_round s kw : regs_ok s -> round_fn s kw = FIPS.round s kw.
Proof.
  destruct s as [[[[[[[a b] c] d] e] f] g] h], kw as [k w].
  intros (Ha & Hb & Hc & Hd & He & Hf & Hg & Hh).
  unfold round_fn, FIPS.round, ROUND. cbn [fst snd].
  rewrite lsigma1_Sigma1, lsigma0_Sigma0, ch_Ch, maj_Maj by assumption.
  unfold add32, u32.
  repeat match goal with |- (_, _) = (_, _) => f_equal end;
    Z.push_pull_mod; reflexivity.
Qed.

Lemma round_regs_ok s kw : regs_ok s -> regs_ok (FIPS.round s kw).
Proof.
  destruct s as [[[[[[[a b] c] d] e] f] g] h].
  intros (Ha & Hb & Hc & Hd & He & Hf & Hg & Hh).
  unfold FIPS.round, regs_ok. auto 10 using u32_range.
Qed.

Lemma fold_round_fn_round l : forall s,
  regs_ok s -> fold_left round_fn l s = fold_left FIPS.round l s.
Proof.
  induction l as [|kw l IH]; intros s Hs; cbn [fold_left].
  - reflexivity.
  - rewrite round_fn_round by assumption.
    apply IH. apply round_regs_ok. assumption.
Qed.

(** ** The unrolled rounds as a fold *)

Lemma round_fn_eq a b c d e f g h k w d1 h1 :
  (d1, h1) = ROUND a b c d e f g h k w ->
  round_fn (a, b, c, d, e, f, g, h) (k, w) = (h1, a, b, c, d1, e, f, g).
Proof. intros E. unfold round_fn. cbn [fst snd]. rewrite <- E. reflexivity. Qed.

Ltac name_rounds :=
  repeat match goal with
    | |- context [ROUND ?a ?b ?c ?d ?e ?f ?g ?h ?k ?w] =>
        let p := fresh "p" in
        remember (ROUND a b c d e f g h k w) as p; destruct p as [? ?]
    end.

Ltac fold_rounds :=
  repeat match goal with
    | E : (_, _) = ROUND _ _ _ _ _ _ _ _ _ _ |- _ =>
        rewrite (round_fn_eq _ _ _ _ _ _ _ _ _ _ _ _ E); clear E
    end.

Lemma sched_pass_cons n ns W :
  sched_pass (n :: ns) W =
  let '(W1, v) := RECALCULATE_W W n in
  let '(W2, vs) := sched_pass ns W1 in
  (W2, v :: vs).
Proof. reflexivity. Qed.

Lemma load_pass_cons block n ns W :
  load_pass block (n :: ns) W =
  let '(W2, vs) := load_pass block ns (upd n (bswap_32 (load32 block n)) W) in
  (W2, bswap_32 (load32 block n) :: vs).
Proof. reflexivity. Qed.

(** The sixteen macro lines of each group are sixteen applications of
    [round_fn]: the rotation of the arguments from line to line is the
    cyclic shift of the eight variables. *)
Lemma rounds_1_16_fold block s W :
  rounds_1_16 block (s, W) =
  let '(W', vs) := load_pass block idx16 W in
  (fold_left round_fn (combine (map (get rhash_k256) idx16) vs) s, W').
Proof.
  destruct s as [[[[[[[A B] C] D] E] F] G] H].
  unfold rounds_1_16, idx16, ROUND_1_16.
  cbn [map]. cbv zeta.
  rewrite !load_pass_cons. cbn [load_pass combine fold_left].
  name_rounds. fold_rounds. reflexivity.
Qed.

Lemma rounds_17_64_fold k s W :
  rounds_17_64 k (s, W) =
  let '(W', vs) := sched_pass idx16 W in
  (fold_left round_fn (combine (map (fun n => get rhash_k256 (k + n)) idx16) vs) s, W').
Proof.
  destruct s as [[[[[[[A B] C] D] E] F] G] H].
  unfold rounds_17_64, idx16, ROUND_17_64.
  cbn [map].
  repeat (rewrite sched_pass_cons;
    match goal with
    | |- context [RECALCULATE_W ?W ?n] =>
        destruct (RECALCULATE_W W n) as [? ?]
    end;
    name_rounds).
  cbn [sched_pass combine fold_left].
  fold_rounds. reflexivity.
Qed.

Lemma rounds_loop_unroll st :
  rounds_loop 4 16 16 st = rounds_17_64 48 (rounds_17_64 32 (rounds_17_64 16 st)).
Proof. reflexivity. Qed.

Lemma load_pass_length block ns : forall W,
  List.length (snd (load_pass block ns W)) = List.length ns.
Proof.
  induction ns as [|n ns IH]; intros W; [reflexivity|].
  rewrite load_pass_cons. specialize (IH (upd n (bswap_32 (load32 block n)) W)).
  destruct (load_pass block ns _) as [W2 vs]. cbn [snd List.length] in *. congruence.
Qed.

Lemma sched_pass_length ns : forall W,
  List.length (snd (sched_pass ns W)) = List.length ns.
Proof.
  induction ns as [|n ns IH]; intros W; [reflexivity|].
  rewrite sched_pass_cons. destruct (RECALCULATE_W W n) as [W1 v].
  specialize (IH W1). destruct (sched_pass ns W1) as [W2 vs].
  cbn [snd List.length] in *. congruence.
Qed.

Lemma combine_app {A B : Type} (l1 l2 : list A) (m1 m2 : list B) :
  List.length l1 = List.length m1 ->
  combine (l1 ++ l2) (m1 ++ m2) = combine l1 m1 ++ combine l2 m2.
Proof.
  revert m1. induction l1 as [|x l1 IH]; intros [|y m1] E; cbn in *; try discriminate.
  - reflexivity.
  - f_equal. apply IH. congruence.
Qed.

Lemma rhash_k256_split :
  rhash_k256 =
  map (get rhash_k256) idx16 ++
  map (fun n => get rhash_k256 (16 + n)) idx16 ++
  map (fun n => get rhash_k256 (32 + n)) idx16 ++
  map (fun n => get rhash_k256 (48 + n)) idx16.
Proof. reflexivity. Qed.

(** The working variables after the 64 rounds of the code. *)
Lemma rounds_fold block s :
  fst (rounds_loop 4 16 16 (rounds_1_16 block (s, repeat 0 16))) =
  fold_left round_fn (combine rhash_k256 (round_inputs block)) s.
Proof.
  rewrite rounds_loop_unroll, rounds_1_16_fold. unfold round_inputs.
  pose proof (load_pass_length block idx16 (repeat 0 16)) as L0.
  destruct (load_pass block idx16 (repeat 0 16)) as [W0 d0].
  rewrite rounds_17_64_fold.
  pose proof (sched_pass_length idx16 W0) as L1.
  destruct (sched_pass idx16 W0) as [W1 d1].
  rewrite rounds_17_64_fold.
  pose proof (sched_pass_length idx16 W1) as L2.
  destruct (sched_pass idx16 W1) as [W2 d2].
  rewrite rounds_17_64_fold.
  pose proof (sched_pass_length idx16 W2) as L3.
  destruct (sched_pass idx16 W2) as [W3 d3].
  cbn [fst snd] in *.
  rewrite rhash_k256_split.
  rewrite !combine_app, !fold_left_app by (rewrite length_map; congruence).
  reflexivity.
Qed.

(** ** Arrays *)

Lemma upd_nat_length {A : Type} (v : A) : forall l i,
  List.length (upd_nat i v l) = List.length l.
Proof.
  induction l as [|x l IH]; intros [|i]; cbn; try reflexivity.
  rewrite IH. reflexivity.
Qed.

Lemma upd_length {A : Type} i (v : A) l : List.length (upd i v l) = List.length l.
Proof. unfold upd. destruct (i <? 0); [reflexivity | apply upd_nat_length]. Qed.

Lemma nth_upd_nat_same {A : Type} (v d : A) : forall l i,
  (i < List.length l)%nat -> nth i (upd_nat i v l) d = v.
Proof.
  induction l as [|x l IH]; intros [|i] Hi; cbn in *; try lia.
  - reflexivity.
  - apply IH. lia.
Qed.

Lemma nth_upd_nat_other {A : Type} (v d : A) : forall l i j,
  i <> j -> nth j (upd_nat i v l) d = nth j l d.
Proof.
  induction l as [|x l IH]; intros [|i] [|j] Hij; cbn; try reflexivity; try lia.
  apply IH. lia.
Qed.

Lemma get_upd_same W n v :
  0 <= n < Z.of_nat (List.length W) -> get (upd n v W) n = v.
Proof.
  intros Hn. unfold get, upd.
  destruct (Z.ltb_spec n 0); [lia|].
  apply nth_upd_nat_same. lia.
Qed.

Lemma get_upd_other W n m v :
  0 <= n -> 0 <= m -> n <> m -> get (upd n v W) m = get W m.
Proof.
  intros Hn Hm Hnm. unfold get, upd.
  destruct (Z.ltb_spec n 0); [lia|].
  apply nth_upd_nat_other. lia.
Qed.

Lemma nth_map_seq {A : Type} (f : nat -> A) n k d :
  (n < k)%nat -> nth n (map f (seq 0 k)) d = f n.
Proof.
  intros H.
  rewrite (nth_indep _ d (f 0%nat)) by (rewrite length_map, length_seq; exact H).
  rewrite (map_nth f (seq 0 k) 0%nat n).
  rewrite seq_nth by exact H. reflexivity.
Qed.

Lemma map_seq_offset {A : Type} (f : nat -> A) k : forall a,
  map f (seq a k) = map (fun m => f (a + m)%nat) (seq 0 k).
Proof.
  induction k as [|k IH]; intros a; [reflexivity|].
  cbn [seq map]. rewrite Nat.add_0_r. f_equal.
  rewrite IH, <- (seq_shift k 0), map_map.
  apply map_ext. intros m. f_equal. lia.
Qed.

(** ** The schedule *)

Lemma be_word_app bs b :
  FIPS.be_word (bs ++ [b]) = FIPS.be_word bs * 256 + byte.unsigned b.
Proof. unfold FIPS.be_word. rewrite fold_left_app. reflexivity. Qed.

Lemma byte_unsigned_range b : 0 <= byte.unsigned b < 256.
Proof.
  unfold byte.unsigned.
  pose proof (Byte.to_N_bounded b). lia.
Qed.

Lemma le_combine_cons b bs :
  le_combine (b :: bs) = byte.unsigned b + 256 * le_combine bs.
Proof.
  change (le_combine (b :: bs))
    with (Z.lor (byte.unsigned b) (Z.shiftl (le_combine bs) 8)).
  pose proof (byte_unsigned_range b) as H.
  rewrite <- (Z.mod_small (byte.unsigned b) (2 ^ 8)) by exact H.
  rewrite Z.or_to_plus by bits.
  rewrite Z.shiftl_mul_pow2 by lia. change (2 ^ 8) with 256. lia.
Qed.

Lemma be_word_le_combine bs : FIPS.be_word bs = le_combine (rev bs).
Proof.
  induction bs as [|b bs IH] using rev_ind.
  - reflexivity.
  - rewrite be_word_app, rev_app_distr. cbn [rev app].
    rewrite le_combine_cons, IH. lia.
Qed.

Lemma bswap_32_le_combine bs :
  List.length bs = 4%nat -> bswap_32 (le_combine bs) = FIPS.be_word bs.
Proof.
  intros L. unfold bswap_32.
  rewrite split_le_combine' by assumption.
  symmetry. apply be_word_le_combine.
Qed.

Lemma expand_length n : forall W,
  List.length (FIPS.expand n W) = (List.length W + n)%nat.
Proof.
  induction n as [|n IH]; intros W; cbn [FIPS.expand].
  - lia.
  - rewrite IH, length_app. cbn. lia.
Qed.

Lemma expand_prefix n : forall W t d,
  (t < List.length W)%nat -> nth t (FIPS.expand n W) d = nth t W d.
Proof.
  induction n as [|n IH]; intros W t d Ht; cbn [FIPS.expand].
  - reflexivity.
  - rewrite IH by (rewrite length_app; lia).
    apply app_nth1. assumption.
Qed.

Lemma expand_rec n : forall W t,
  (1 <= List.length W)%nat ->
  (List.length W <= t < List.length W + n)%nat ->
  nth t (FIPS.expand n W) 0 =
  u32 (FIPS.sigma1 (nth (t - 2) (FIPS.expand n W) 0)
       + nth (t - 7) (FIPS.expand n W) 0
       + FIPS.sigma0 (nth (t - 15) (FIPS.expand n W) 0)
       + nth (t - 16) (FIPS.expand n W) 0).
Proof.
  induction n as [|n IH]; intros W t H1 Ht; [lia|].
  cbn [FIPS.expand].
  destruct (Nat.eq_dec t (List.length W)) as [->|Hne].
  - rewrite !(expand_prefix n (W ++ _)) by (rewrite length_app; cbn; lia).
    rewrite nth_middle.
    rewrite !app_nth1 by lia. reflexivity.
  - apply IH; rewrite length_app; cbn; lia.
Qed.

Section Schedule.

Variable block : list byte.
Hypothesis block_length : List.length block = 64%nat.

Lemma block_words_length : List.length (FIPS.block_words block) = 16%nat.
Proof. unfold FIPS.block_words. rewrite length_map, length_seq. reflexivity. Qed.

Lemma schedule_length : List.length (FIPS.schedule block) = 64%nat.
Proof. unfold FIPS.schedule. rewrite expand_length, block_words_length. reflexivity. Qed.

Lemma schedule_rec t :
  16 <= t < 64 ->
  get (FIPS.schedule block) t =
  u32 (FIPS.sigma1 (get (FIPS.schedule block) (t - 2))
       + get (FIPS.schedule block) (t - 7)
       + FIPS.sigma0 (get (FIPS.schedule block) (t - 15))
       + get (FIPS.schedule block) (t - 16)).
Proof.
  intros Ht. unfold get, FIPS.schedule.
  rewrite expand_rec by (rewrite block_words_length; lia).
  replace (Z.to_nat (t - 2)) with (Z.to_nat t - 2)%nat by lia.
  replace (Z.to_nat (t - 7)) with (Z.to_nat t - 7)%nat by lia.
  replace (Z.to_nat (t - 15)) with (Z.to_nat t - 15)%nat by lia.
  replace (Z.to_nat (t - 16)) with (Z.to_nat t - 16)%nat by lia.
  reflexivity.
Qed.

Lemma load32_block n :
  (n < 16)%nat ->
  bswap_32 (load32 block (Z.of_nat n)) =
  FIPS.be_word (firstn 4 (skipn (4 * n) block)).
Proof.
  intros Hn. unfold load32.
  replace (Z.to_nat (4 * Z.of_nat n)) with (4 * n)%nat by lia.
  apply bswap_32_le_combine.
  rewrite length_firstn, length_skipn. lia.
Qed.

Lemma schedule_low t :
  0 <= t < 16 -> get (FIPS.schedule block) t = bswap_32 (load32 block t).
Proof.
  intros Ht. unfold get, FIPS.schedule.
  rewrite expand_prefix by (rewrite block_words_length; lia).
  unfold FIPS.block_words.
  rewrite nth_map_seq by lia.
  rewrite <- load32_block by lia. f_equal. f_equal. lia.
Qed.

Lemma bswap_32_range x : is_u32 (bswap_32 x).
Proof.
  unfold bswap_32, is_u32.
  pose proof (le_combine_bound (rev (le_split 4 x))) as B.
  rewrite length_rev, length_le_split in B. exact B.
Qed.

Lemma schedule_range t : 0 <= t < 64 -> is_u32 (get (FIPS.schedule block) t).
Proof.
  intros Ht. destruct (Z.lt_ge_cases t 16).
  - rewrite schedule_low by lia. apply bswap_32_range.
  - rewrite schedule_rec by lia. apply u32_range.
Qed.

Lemma land_15 x : Z.land x 15 = x mod 16.
Proof. change 15 with (Z.ones 4). rewrite Z.land_ones by lia. reflexivity. Qed.

(** One [RECALCULATE_W] yields entry [t] of the full schedule and keeps the
    buffer in step with it. *)
Lemma RECALCULATE_W_circ t n W :
  16 <= t < 64 -> 0 <= n < 16 -> t mod 16 = n -> circ block t W ->
  snd (RECALCULATE_W W n) = get (FIPS.schedule block) t /\
  circ block (t + 1) (fst (RECALCULATE_W W n)).
Proof.
  intros Ht Hn Htn [HL HW]. unfold RECALCULATE_W. cbn [fst snd].
  assert (Hv :
    add32 (get W n)
      (add32
         (add32 (zkwasm_sha256_ssigma1 (get W (Z.land (n - 2) 15)))
            (get W (Z.land (n - 7) 15)))
         (zkwasm_sha256_ssigma0 (get W (Z.land (n - 15) 15)))) =
    get (FIPS.schedule block) t).
  { rewrite !land_15.
    replace n with ((t - 16) mod 16) at 1 by (rewrite <- Htn; Z.div_mod_to_equations; lia).
    replace ((n - 2) mod 16) with ((t - 2) mod 16)
      by (rewrite <- Htn; Z.div_mod_to_equations; lia).
    replace ((n - 7) mod 16) with ((t - 7) mod 16)
      by (rewrite <- Htn; Z.div_mod_to_equations; lia).
    replace ((n - 15) mod 16) with ((t - 15) mod 16)
      by (rewrite <- Htn; Z.div_mod_to_equations; lia).
    rewrite !HW by lia.
    rewrite ssigma1_sigma1, ssigma0_sigma0 by (apply schedule_range; lia).
    rewrite (schedule_rec t) by lia.
    unfold add32, u32. Z.push_pull_mod. f_equal. lia. }
  split; [exact Hv|].
  rewrite Hv. split.
  - rewrite upd_length. exact HL.
  - intros i Hi. destruct (Z.eq_dec i t) as [->|Hne].
    + rewrite Htn. apply get_upd_same. lia.
    + rewrite get_upd_other.
      * apply HW. lia.
      * lia.
      * apply Z.mod_pos_bound. lia.
      * rewrite <- Htn. intros E.
        Z.div_mod_to_equations. lia.
Qed.

Lemma sched_pass_circ k : forall a t W,
  (a + k = 16)%nat -> 16 <= t -> t + Z.of_nat k <= 64 ->
  (t - Z.of_nat a) mod 16 = 0 -> circ block t W ->
  snd (sched_pass (map Z.of_nat (seq a k)) W) =
    map (fun m => get (FIPS.schedule block) (t + Z.of_nat m)) (seq 0 k) /\
  circ block (t + Z.of_nat k) (fst (sched_pass (map Z.of_nat (seq a k)) W)).
Proof.
  induction k as [|k IH]; intros a t W Hak Ht Htk Hta HW.
  - cbn. split; [reflexivity|]. rewrite Z.add_0_r. exact HW.
  - cbn [seq map]. rewrite sched_pass_cons.
    destruct (RECALCULATE_W_circ t (Z.of_nat a) W) as [Hv HW1]; try lia; try assumption.
    { Z.div_mod_to_equations. lia. }
    destruct (RECALCULATE_W W (Z.of_nat a)) as [W1 v]. cbn [fst snd] in Hv, HW1.
    destruct (IH (S a) (t + 1) W1) as [Hvs HW2]; try lia; try assumption.
    { replace (t + 1 - Z.of_nat (S a)) with (t - Z.of_nat a) by lia. exact Hta. }
    destruct (sched_pass (map Z.of_nat (seq (S a) k)) W1) as [W2 vs].
    cbn [fst snd] in *. split.
    + rewrite Hv, Hvs. rewrite Z.add_0_r. f_equal.
      rewrite <- seq_shift, map_map. apply map_ext. intros m. f_equal. lia.
    + replace (t + Z.of_nat (S k)) with (t + 1 + Z.of_nat k) by lia. exact HW2.
Qed.

Lemma idx16_seq : idx16 = map Z.of_nat (seq 0 16).
Proof. reflexivity. Qed.

Lemma load_pass_idx16 :
  load_pass block idx16 (repeat 0 16) =
  (map (fun n => bswap_32 (load32 block n)) idx16,
   map (fun n => bswap_32 (load32 block n)) idx16).
Proof. reflexivity. Qed.

Lemma circ_16 : circ block 16 (map (fun n => bswap_32 (load32 block n)) idx16).
Proof.
  split; [reflexivity|].
  intros i Hi. rewrite Z.mod_small by lia. rewrite schedule_low by lia.
  assert (E : i = 0 \/ i = 1 \/ i = 2 \/ i = 3 \/ i = 4 \/ i = 5 \/ i = 6 \/ i = 7 \/
              i = 8 \/ i = 9 \/ i = 10 \/ i = 11 \/ i = 12 \/ i = 13 \/ i = 14 \/ i = 15)
    by lia.
  repeat (destruct E as [->|E]; [reflexivity|]). subst i. reflexivity.
Qed.

Lemma list_as_map_get (l : list Z) :
  l = map (fun m => get l (Z.of_nat m)) (seq 0 (List.length l)).
Proof.
  apply nth_ext with (d := 0) (d' := 0).
  - rewrite length_map, length_seq. reflexivity.
  - intros n Hn. rewrite nth_map_seq by assumption.
    unfold get. rewrite Nat2Z.id. reflexivity.
Qed.

(** The circular buffer feeds the rounds the entries of the full schedule. *)
Lemma round_inputs_schedule : round_inputs block = FIPS.schedule block.
Proof.
  unfold round_inputs. rewrite load_pass_idx16.
  set (W0 := map (fun n => bswap_32 (load32 block n)) idx16).
  pose proof circ_16 as C0. fold W0 in C0.
  rewrite idx16_seq.
  destruct (sched_pass_circ 16 0 16 W0) as [D1 C1]; try lia; try assumption; [reflexivity|].
  destruct (sched_pass (map Z.of_nat (seq 0 16)) W0) as [W1 d1]. cbn [fst snd] in D1, C1.
  destruct (sched_pass_circ 16 0 32 W1) as [D2 C2]; try lia; try assumption; [reflexivity|].
  destruct (sched_pass (map Z.of_nat (seq 0 16)) W1) as [W2 d2]. cbn [fst snd] in D2, C2.
  destruct (sched_pass_circ 16 0 48 W2) as [D3 C3]; try lia; try assumption; [reflexivity|].
  destruct (sched_pass (map Z.of_nat (seq 0 16)) W2) as [W3 d3]. cbn [fst snd] in D3, C3.
  subst d1 d2 d3.
  transitivity (map (fun m => get (FIPS.schedule block) (Z.of_nat m)) (seq 0 64)).
  2:{ rewrite <- schedule_length. symmetry. apply list_as_map_get. }
  change 64%nat with (16 + (16 + (16 + 16)))%nat.
  rewrite !seq_app, !map_app. cbn [Nat.add].
  assert (E0 : W0 = map (fun m => get (FIPS.schedule block) (Z.of_nat m)) (seq 0 16)).
  { unfold W0. rewrite idx16_seq, map_map.
    apply map_ext_in. intros m Hm. apply in_seq in Hm.
    symmetry. apply schedule_low. lia. }
  rewrite E0, (map_seq_offset _ 16 16), (map_seq_offset _ 16 32), (map_seq_offset _ 16 48).
  repeat (apply (f_equal2 (@app Z)); [try reflexivity|]);
    apply map_ext; intros m; f_equal; lia.
Qed.

End Schedule.

(** ** The constants *)

Lemma primes_64 :
  FIPS.primes 64 =
  [ 2; 3; 5; 7; 11; 13; 17; 19; 23; 29; 31; 37; 41; 43; 47; 53; 59; 61; 67; 71; 73; 79;
    83; 89; 97; 101; 103; 107; 109; 113; 127; 131; 137; 139; 149; 151; 157; 163; 167;
    173; 179; 181; 191; 193; 197; 199; 211; 223; 227; 229; 233; 239; 241; 251; 257; 263;
    269; 271; 277; 281; 283; 293; 307; 311 ].
Proof. vm_compute. reflexivity. Qed.

(** [icbrt] is the integer cube root at the arguments it is used on. *)
Lemma icbrt_primes :
  forallb
    (fun p =>
       (FIPS.icbrt (p * 2 ^ 96) ^ 3 <=? p * 2 ^ 96)
       && (p * 2 ^ 96 <? (FIPS.icbrt (p * 2 ^ 96) + 1) ^ 3))
    (FIPS.primes 64) = true.
Proof. vm_compute. reflexivity. Qed.

(** The table of the source holds the round constants of the standard. *)
Lemma rhash_k256_K : rhash_k256 = FIPS.K.
Proof. vm_compute. reflexivity. Qed.

Lemma SHA256_H0_standard : SHA256_H0 = FIPS.H0_256.
Proof. vm_compute. reflexivity. Qed.

Lemma SHA224_H0_standard : SHA224_H0 = FIPS.H0_224.
Proof. vm_compute. reflexivity. Qed.

(** ** The compression function *)

(** The code as 64 rounds over the inputs that the circular buffer yields. *)
Lemma process_block_rounds_with hash block :
  sha256_process_block hash block = rounds_with (round_inputs block) hash.
Proof.
  unfold sha256_process_block, rounds_with. cbv zeta.
  rewrite <- rounds_fold.
  destruct (rounds_loop 4 16 16 _) as [[[[[[[[A B] C] D] E] F] G] H] W].
  reflexivity.
Qed.

(** The code against the compression function of the specification. *)
Lemma process_block_compress state block :
  List.length state = 8%nat -> Forall is_u32 state -> List.length block = 64%nat ->
  sha256_process_block state block = FIPS.compress state block.
Proof.
  intros L R LB.
  destruct state as [|a [|b [|c [|d [|e [|f [|g [|h [|]]]]]]]]]; try discriminate L.
  rewrite process_block_rounds_with, round_inputs_schedule by assumption.
  unfold rounds_with, FIPS.compress. rewrite <- rhash_k256_K.
  change (get [a; b; c; d; e; f; g; h] 0) with a.
  change (get [a; b; c; d; e; f; g; h] 1) with b.
  change (get [a; b; c; d; e; f; g; h] 2) with c.
  change (get [a; b; c; d; e; f; g; h] 3) with d.
  change (get [a; b; c; d; e; f; g; h] 4) with e.
  change (get [a; b; c; d; e; f; g; h] 5) with f.
  change (get [a; b; c; d; e; f; g; h] 6) with g.
  change (get [a; b; c; d; e; f; g; h] 7) with h.
  rewrite fold_round_fn_round.
  - destruct (fold_left FIPS.round _ _) as [[[[[[[A B] C] D] E] F] G] H].
    reflexivity.
  - repeat match goal with
      | H : Forall _ (_ :: _) |- _ => inversion H; subst; clear H
      end.
    unfold regs_ok. auto 10.
Qed.

(** ** Lists *)

Lemma upd_nat_app {A : Type} (v x : A) l1 l2 :
  upd_nat (List.length l1) v (l1 ++ x :: l2) = l1 ++ v :: l2.
Proof. induction l1 as [|y l1 IH]; cbn; [reflexivity | rewrite IH; reflexivity]. Qed.

Lemma firstn_skipn_add {A : Type} (l : list A) a b :
  firstn a l ++ firstn b (skipn a l) = firstn (a + b) l.
Proof.
  revert l. induction a as [|a IH]; intros l; [reflexivity|].
  destruct l as [|x l]; cbn.
  - rewrite firstn_nil. reflexivity.
  - rewrite IH. reflexivity.
Qed.

Lemma skipn_S_nth {A : Type} (d : A) : forall n l,
  (n < List.length l)%nat -> skipn n l = nth n l d :: skipn (S n) l.
Proof.
  induction n as [|n IH]; intros [|x l] H; cbn in *; try lia.
  - reflexivity.
  - apply IH. lia.
Qed.

Lemma firstn_S_nth {A : Type} (d : A) : forall n l,
  (n < List.length l)%nat -> firstn (S n) l = firstn n l ++ [nth n l d].
Proof.
  induction n as [|n IH]; intros [|x l] H; cbn in *; try lia.
  - reflexivity.
  - f_equal. apply IH. lia.
Qed.

Lemma firstn_app_exact {A : Type} (l1 l2 : list A) :
  firstn (List.length l1) (l1 ++ l2) = l1.
Proof.
  rewrite firstn_app, Nat.sub_diag, firstn_O, app_nil_r. apply firstn_all.
Qed.

Lemma skipn_app_exact {A : Type} (l1 l2 : list A) :
  skipn (List.length l1) (l1 ++ l2) = l2.
Proof. rewrite skipn_app, Nat.sub_diag, skipn_O, skipn_all. reflexivity. Qed.

Lemma fold_left_cons {A B : Type} (f : A -> B -> A) x l a :
  fold_left f (x :: l) a = fold_left f l (f a x).
Proof. reflexivity. Qed.

(** ** Loops *)

(** A [uint8_t] loop with a bound of at most 255 runs its body once for each
    index below the bound, in order, and exits by its test. *)
Lemma for_u8_fold {T : Type} (body : Z -> T -> T) bound : forall fuel i s,
  0 <= i <= bound -> bound <= 255 -> (Z.to_nat (bound - i) < fuel)%nat ->
  for_u8 fuel i bound body s =
  fold_left (fun s j => body (Z.of_nat j) s) (seq (Z.to_nat i) (Z.to_nat (bound - i))) s.
Proof.
  induction fuel as [|fuel IH]; intros i s Hi Hb Hf; [lia|].
  cbn [for_u8]. destruct (Z.ltb_spec i bound) as [Hlt|Hge].
  - assert (E : u8 (i + 1) = i + 1) by (unfold u8; apply Z.mod_small; lia).
    rewrite E, IH by lia.
    replace (Z.to_nat (bound - i)) with (S (Z.to_nat (bound - (i + 1)))) by lia.
    cbn [seq fold_left]. rewrite Z2Nat.id by lia.
    replace (Z.to_nat (i + 1)) with (S (Z.to_nat i)) by lia. reflexivity.
  - replace (bound - i) with 0 by lia. reflexivity.
Qed.

(** The two copy loops of [Hash_Update]. *)
Lemma copy_fold msg m0 index : forall n,
  (index + n <= List.length m0)%nat -> (n <= List.length msg)%nat ->
  fold_left (fun m j => upd (Z.of_nat index + Z.of_nat j) (byte_at msg (Z.of_nat j)) m)
    (seq 0 n) m0 =
  firstn index m0 ++ firstn n msg ++ skipn (index + n) m0.
Proof.
  induction n as [|n IH]; intros Hm Hd.
  - cbn. rewrite Nat.add_0_r, firstn_skipn. reflexivity.
  - rewrite seq_S, fold_left_app, IH by lia. cbn [Nat.add fold_left].
    unfold upd, byte_at.
    destruct (Z.ltb_spec (Z.of_nat index + Z.of_nat n) 0); [lia|].
    rewrite Nat2Z.id.
    rewrite (skipn_S_nth Byte.x00 (index + n)) by lia.
    rewrite (firstn_S_nth Byte.x00 n msg) by lia.
    replace (Z.to_nat (Z.of_nat index + Z.of_nat n))
      with (List.length (firstn index m0 ++ firstn n msg))
      by (rewrite length_app, !length_firstn; lia).
    rewrite app_assoc, upd_nat_app.
    rewrite <- !app_assoc. cbn [app].
    replace (index + S n)%nat with (S (index + n)) by lia. reflexivity.
Qed.

Lemma copy_loop msg m0 index n :
  0 <= index -> 0 <= n <= 255 ->
  (Z.to_nat index + Z.to_nat n <= List.length m0)%nat ->
  (Z.to_nat n <= List.length msg)%nat ->
  for_u8 256 0 n (fun i m => upd (index + i) (byte_at msg i) m) m0 =
  firstn (Z.to_nat index) m0 ++ firstn (Z.to_nat n) msg
    ++ skipn (Z.to_nat index + Z.to_nat n) m0.
Proof.
  intros Hi Hn Hm Hd.
  rewrite for_u8_fold by lia.
  rewrite Z.sub_0_r. change (Z.to_nat 0) with 0%nat.
  rewrite <- copy_fold by assumption.
  rewrite Z2Nat.id by lia. reflexivity.
Qed.

(** ** Blocks of a message *)

Lemma blocks_short M : (List.length M < 64)%nat -> blocks M = [] /\ tail M = M.
Proof.
  intros H. unfold blocks, tail. rewrite Nat.div_small by assumption.
  split; reflexivity.
Qed.

Lemma blocks_cons B M :
  List.length B = 64%nat ->
  blocks (B ++ M) = B :: blocks M /\ tail (B ++ M) = tail M.
Proof.
  intros HB. unfold blocks, tail. rewrite length_app, HB.
  replace ((64 + List.length M) / 64)%nat with (S (List.length M / 64)).
  2:{ change 64%nat with (1 * 64)%nat at 2. rewrite Nat.div_add_l by lia. reflexivity. }
  split.
  - cbn [blocks_aux].
    replace (firstn 64 (B ++ M)) with B by (rewrite <- HB; symmetry; apply firstn_app_exact).
    replace (skipn 64 (B ++ M)) with M by (rewrite <- HB; symmetry; apply skipn_app_exact).
    reflexivity.
  - replace (64 * S (List.length M / 64))%nat
      with (64 * (List.length M / 64) + List.length B)%nat by lia.
    rewrite <- skipn_skipn, skipn_app_exact. reflexivity.
Qed.

Lemma blocks_concat Bs : forall t,
  Forall (fun B => List.length B = 64%nat) Bs -> (List.length t < 64)%nat ->
  blocks (List.concat Bs ++ t) = Bs /\ tail (List.concat Bs ++ t) = t.
Proof.
  induction Bs as [|B Bs IH]; intros t HBs Ht.
  - apply blocks_short. assumption.
  - inversion HBs as [|? ? HB HBs']; subst.
    cbn [List.concat]. rewrite <- app_assoc.
    destruct (blocks_cons B (List.concat Bs ++ t) HB) as [E1 E2].
    destruct (IH t HBs' Ht) as [E3 E4].
    rewrite E1, E2, E3, E4. split; reflexivity.
Qed.

Lemma blocks_aux_spec n : forall M,
  (64 * n <= List.length M)%nat ->
  Forall (fun B => List.length B = 64%nat) (blocks_aux n M) /\
  List.concat (blocks_aux n M) = firstn (64 * n) M.
Proof.
  induction n as [|n IH]; intros M H.
  - cbn. split; [constructor | reflexivity].
  - cbn [blocks_aux List.concat].
    destruct (IH (skipn 64 M)) as [F E]; [rewrite length_skipn; lia|].
    split.
    + constructor; [rewrite length_firstn; lia | exact F].
    + rewrite E. replace (64 * S n)%nat with (64 + 64 * n)%nat by lia.
      apply firstn_skipn_add.
Qed.

Lemma blocks_spec M :
  Forall (fun B => List.length B = 64%nat) (blocks M) /\
  (List.length (tail M) < 64)%nat /\
  List.concat (blocks M) ++ tail M = M.
Proof.
  unfold blocks, tail.
  pose proof (Nat.div_mod_eq (List.length M) 64) as D.
  pose proof (Nat.mod_upper_bound (List.length M) 64 ltac:(lia)) as U.
  destruct (blocks_aux_spec (List.length M / 64) M) as [F E]; [lia|].
  split; [exact F|]. split.
  - rewrite length_skipn. lia.
  - rewrite E. apply firstn_skipn.
Qed.

Lemma tail_length M : List.length (tail M) = (List.length M mod 64)%nat.
Proof.
  unfold tail. rewrite length_skipn.
  pose proof (Nat.div_mod_eq (List.length M) 64). lia.
Qed.

(** Feeding [N] after [M]: the blocks of [M], then the blocks of what [M]
    left over followed by [N]. *)
Lemma blocks_app M N :
  blocks (M ++ N) = blocks M ++ blocks (tail M ++ N) /\
  tail (M ++ N) = tail (tail M ++ N).
Proof.
  destruct (blocks_spec M) as (FM & TM & EM).
  destruct (blocks_spec (tail M ++ N)) as (FN & TN & EN).
  assert (E : M ++ N =
              List.concat (blocks M ++ blocks (tail M ++ N)) ++ tail (tail M ++ N)).
  { rewrite concat_app, <- app_assoc, EN, app_assoc, EM. reflexivity. }
  rewrite E. apply blocks_concat.
  - apply Forall_app. split; assumption.
  - assumption.
Qed.

Lemma concat_blocks_length (Bs : list (list byte)) :
  Forall (fun B => List.length B = 64%nat) Bs ->
  List.length (List.concat Bs) = (64 * List.length Bs)%nat.
Proof.
  induction 1 as [|B Bs HB _ IH]; [reflexivity|].
  cbn [List.concat List.length]. rewrite length_app, HB, IH. lia.
Qed.

(** ** Word access to a byte buffer *)

Lemma load32_firstn b n :
  0 <= n < 16 -> load32 (firstn 64 b) n = load32 b n.
Proof.
  intros Hn. unfold load32.
  rewrite skipn_firstn_comm, firstn_firstn.
  replace (Nat.min 4 (64 - Z.to_nat (4 * n))) with 4%nat by lia.
  reflexivity.
Qed.

Lemma in_idx16 n : In n idx16 -> 0 <= n < 16.
Proof.
  unfold idx16. cbn [In]. intros H.
  repeat (destruct H as [<-|H]; [lia|]). contradiction.
Qed.

Lemma round_inputs_firstn b : round_inputs (firstn 64 b) = round_inputs b.
Proof.
  unfold round_inputs. rewrite !load_pass_idx16.
  replace (map (fun n => bswap_32 (load32 (firstn 64 b) n)) idx16)
    with (map (fun n => bswap_32 (load32 b n)) idx16).
  - reflexivity.
  - apply map_ext_in. intros n Hn. rewrite load32_firstn by (apply in_idx16; exact Hn).
    reflexivity.
Qed.

(** [sha256_process_block] reads the first 64 bytes behind its argument. *)
Lemma process_block_firstn h b :
  sha256_process_block h (firstn 64 b) = sha256_process_block h b.
Proof. rewrite !process_block_rounds_with, round_inputs_firstn. reflexivity. Qed.

Lemma process_block_length h b : List.length (sha256_process_block h b) = 8%nat.
Proof.
  unfold sha256_process_block. cbv zeta.
  destruct (rounds_loop 4 16 16 _) as [[[[[[[[A B] C] D] E] F] G] H] W].
  reflexivity.
Qed.

Lemma load32_app A B C i :
  List.length A = Z.to_nat (4 * i) -> List.length B = 4%nat ->
  load32 (A ++ B ++ C) i = le_combine B.
Proof.
  intros HA HB. unfold load32.
  rewrite <- HA, skipn_app_exact, <- HB, firstn_app_exact. reflexivity.
Qed.

Lemma store32_app A B C i v :
  List.length A = Z.to_nat (4 * i) -> List.length B = 4%nat ->
  store32 (A ++ B ++ C) i v = A ++ le_split 4 v ++ C.
Proof.
  intros HA HB. unfold store32.
  rewrite <- HA, firstn_app_exact.
  rewrite (Nat.add_comm (List.length A) 4), <- skipn_skipn, skipn_app_exact.
  rewrite <- HB, skipn_app_exact. reflexivity.
Qed.

(** ** The loop over whole blocks *)

Opaque sha256_process_block.


Lemma update_blocks_done t fuel c :
  (List.length t < 64)%nat ->
  update_blocks fuel (Z.of_nat (List.length t)) t c = ((Z.of_nat (List.length t), t), c, []).
Proof.
  intros Ht. destruct fuel as [|fuel]; [reflexivity|].
  cbn [update_blocks]. unfold sha256_block_size.
  destruct (Z.leb_spec 64 (Z.of_nat (List.length t))); [lia | reflexivity].
Qed.

Lemma update_blocks_step B rest fuel c :
  List.length B = 64%nat ->
  update_blocks (S fuel) (Z.of_nat (List.length (B ++ rest))) (B ++ rest) c =
  let '(r, c2, t2) :=
    update_blocks fuel (Z.of_nat (List.length rest)) rest
      (mk_ctx (message c) (length c) (sha256_process_block (hash c) B) (digest_length c)) in
  (r, c2, B :: t2).
Proof.
  intros HB.
  cbn [update_blocks]. unfold sha256_block_size.
  destruct (Z.leb_spec 64 (Z.of_nat (List.length (B ++ rest)))) as [_|Hlt].
  2:{ rewrite length_app in Hlt. lia. }
  unfold bind, process_block.
  change (Z.to_nat 64) with 64%nat.
  replace (skipn 64 (B ++ rest)) with rest
    by (rewrite <- HB; symmetry; apply skipn_app_exact).
  replace (firstn 64 (B ++ rest)) with B
    by (rewrite <- HB; symmetry; apply firstn_app_exact).
  replace (Z.of_nat (List.length (B ++ rest)) - 64) with (Z.of_nat (List.length rest))
    by (rewrite (length_app B); lia).
  rewrite <- (process_block_firstn (hash c) (B ++ rest)).
  replace (firstn 64 (B ++ rest)) with B
    by (rewrite <- HB; symmetry; apply firstn_app_exact).
  reflexivity.
Qed.

(** The [while] loop of [Hash_Update] compresses the complete blocks of its
    input, in order, and stops at the bytes after them. *)
Lemma update_blocks_run Bs : forall t fuel m l h d,
  Forall (fun B => List.length B = 64%nat) Bs -> (List.length t < 64)%nat ->
  (List.length Bs <= fuel)%nat ->
  update_blocks fuel (Z.of_nat (List.length (List.concat Bs ++ t))) (List.concat Bs ++ t)
    (mk_ctx m l h d) =
  ((Z.of_nat (List.length t), t),
   mk_ctx m l (fold_left sha256_process_block Bs h) d,
   Bs).
Proof.
  induction Bs as [|B Bs IH]; intros t fuel m l h d HBs Ht Hf.
  - apply update_blocks_done. assumption.
  - assert (HB : List.length B = 64%nat) by (inversion HBs; assumption).
    assert (HBs' : Forall (fun B => List.length B = 64%nat) Bs) by (inversion HBs; assumption).
    destruct fuel as [|fuel]; [cbn in Hf; lia|].
    assert (Hf' : (List.length Bs <= fuel)%nat) by (cbn in Hf; lia).
    change (List.concat (B :: Bs)) with (B ++ List.concat Bs).
    rewrite <- app_assoc.
    rewrite (update_blocks_step B (List.concat Bs ++ t) fuel (mk_ctx m l h d) HB).
    change (message (mk_ctx m l h d)) with m.
    change (length (mk_ctx m l h d)) with l.
    change (hash (mk_ctx m l h d)) with h.
    change (digest_length (mk_ctx m l h d)) with d.
    rewrite (IH t fuel m l (sha256_process_block h B) d HBs' Ht Hf').
    rewrite fold_left_cons. reflexivity.
Qed.

Lemma update_blocks_spec msg c :
  update_blocks (Z.to_nat (Z.of_nat (List.length msg))) (Z.of_nat (List.length msg)) msg c =
  ((Z.of_nat (List.length (tail msg)), tail msg),
   mk_ctx (message c) (length c) (fold_left sha256_process_block (blocks msg) (hash c))
     (digest_length c),
   blocks msg).
Proof.
  destruct (blocks_spec msg) as (F & T & E).
  pose proof (concat_blocks_length _ F) as L.
  destruct c as [m l h d]. cbn [message length hash digest_length].
  rewrite Nat2Z.id.
  pose proof (update_blocks_run (blocks msg) (tail msg) (List.length msg) m l h d F T) as R.
  rewrite E in R. apply R.
  rewrite <- E at 2. rewrite length_app. lia.
Qed.


(** ** Running the computations *)

Lemma bind_ret {A B : Type} (a : A) (k : A -> M B) c : bind (ret a) k c = k a c.
Proof. unfold bind, ret. destruct (k a c) as [[b c2] t2]. reflexivity. Qed.

Lemma bind_get_ctx {B : Type} (k : sha256_ctx -> M B) c : bind get_ctx k c = k c c.
Proof. unfold bind, get_ctx. destruct (k c c) as [[b c2] t2]. reflexivity. Qed.

Lemma bind_set_message {B : Type} m (k : unit -> M B) c :
  bind (set_message m) k c = k tt (mk_ctx m (length c) (hash c) (digest_length c)).
Proof. unfold bind, set_message. destruct (k tt _) as [[b c2] t2]. reflexivity. Qed.

Lemma bind_set_length {B : Type} n (k : unit -> M B) c :
  bind (set_length n) k c = k tt (mk_ctx (message c) n (hash c) (digest_length c)).
Proof. unfold bind, set_length. destruct (k tt _) as [[b c2] t2]. reflexivity. Qed.

Lemma bind_set_hash {B : Type} h (k : unit -> M B) c :
  bind (set_hash h) k c = k tt (mk_ctx (message c) (length c) h (digest_length c)).
Proof. unfold bind, set_hash. destruct (k tt _) as [[b c2] t2]. reflexivity. Qed.

Lemma bind_set_digest_length {B : Type} n (k : unit -> M B) c :
  bind (set_digest_length n) k c = k tt (mk_ctx (message c) (length c) (hash c) n).
Proof. unfold bind, set_digest_length. destruct (k tt _) as [[b c2] t2]. reflexivity. Qed.

Lemma bind_process_block {B : Type} block (k : unit -> M B) c :
  bind (process_block block) k c =
  let '(b, c2, t2) :=
    k tt (mk_ctx (message c) (length c) (sha256_process_block (hash c) block)
            (digest_length c)) in
  (b, c2, firstn 64 block :: t2).
Proof. reflexivity. Qed.

Lemma bind_assoc {A B C : Type} (m : M A) (f : A -> M B) (g : B -> M C) c :
  bind (bind m f) g c = bind m (fun x => bind (f x) g) c.
Proof.
  unfold bind. destruct (m c) as [[a c1] t1]. destruct (f a c1) as [[b c2] t2].
  destruct (g b c2) as [[r c3] t3]. rewrite app_assoc. reflexivity.
Qed.

Lemma bind_run {A B : Type} (m : M A) (k : A -> M B) c a c1 t1 :
  m c = (a, c1, t1) ->
  bind m k c = let '(b, c2, t2) := k a c1 in (b, c2, t1 ++ t2).
Proof. intros E. unfold bind. rewrite E. reflexivity. Qed.

Ltac run_step :=
  first
    [ rewrite bind_assoc
    | rewrite bind_ret
    | rewrite bind_get_ctx
    | rewrite bind_set_message
    | rewrite bind_set_length
    | rewrite bind_set_hash
    | rewrite bind_set_digest_length
    | rewrite bind_process_block ];
  cbv beta iota zeta; cbn [message length hash digest_length].

Ltac run := repeat run_step.

Lemma index_mod x : Z.land (u32 x) 63 = x mod 64.
Proof.
  change 63 with (Z.ones 6). rewrite Z.land_ones by lia. unfold u32.
  apply Z.mod_mod_divide.
  exists (2 ^ 26). reflexivity.
Qed.

(** ** [Hash_Init] *)

Lemma Hash_Init_run bits c :
  List.length (hash c) = 8%nat ->
  Hash_Init bits c = (tt, mk_ctx (message c) 0 SHA256_H0 32, []).
Proof.
  destruct c as [m l h d]. cbn [hash]. intros L.
  destruct h as [|h0 [|h1 [|h2 [|h3 [|h4 [|h5 [|h6 [|h7 [|]]]]]]]]]; try discriminate L.
  reflexivity.
Qed.

(** ** [Hash_Update] *)

(** The whole blocks and the leftovers, once the buffer is empty. *)
Lemma update_rest msg m l h d :
  List.length m = 64%nat ->
  bind (update_blocks (Z.to_nat (Z.of_nat (List.length msg))) (Z.of_nat (List.length msg)) msg)
    (fun r =>
       let '(size, msg) := r in
       if size =? 0 then ret tt
       else
         bind get_ctx (fun c =>
           set_message
             (for_u8 256 0 size (fun i m => upd i (byte_at msg i) m) (message c))))
    (mk_ctx m l h d) =
  (tt,
   mk_ctx (tail msg ++ skipn (List.length (tail msg)) m) l
     (fold_left sha256_process_block (blocks msg) h) d,
   blocks msg).
Proof.
  intros Hm.
  rewrite (bind_run _ _ _ _ _ _ (update_blocks_spec msg (mk_ctx m l h d))).
  cbn [message length hash digest_length].
  destruct (blocks_spec msg) as (_ & T & _).
  destruct (Z.eqb_spec (Z.of_nat (List.length (tail msg))) 0) as [E|E].
  - unfold ret. rewrite app_nil_r.
    destruct (tail msg); [|discriminate E]. reflexivity.
  - run. unfold set_message. cbn [message length hash digest_length].
    rewrite app_nil_r.
    rewrite (copy_loop (tail msg) m 0); rewrite ?Nat2Z.id; try lia.
    change (Z.to_nat 0) with 0%nat. cbn [firstn app Nat.add].
    rewrite firstn_all. reflexivity.
Qed.

(** [Hash_Update] on an empty buffer. *)
Lemma Hash_Update_aligned data m l h d :
  List.length m = 64%nat -> l mod 64 = 0 ->
  Hash_Update (Z.of_nat (List.length data)) data (mk_ctx m l h d) =
  (tt,
   mk_ctx (tail data ++ skipn (List.length (tail data)) m)
     (u64 (l + Z.of_nat (List.length data)))
     (fold_left sha256_process_block (blocks data) h) d,
   blocks data).
Proof.
  intros Hm Hl. unfold Hash_Update. run.
  rewrite index_mod, Hl.
  change (0 =? 0) with true. cbv iota. run.
  apply update_rest. assumption.
Qed.

(** The first [if] of [Hash_Update] when the chunk does not fill the
    buffer. *)
Lemma Hash_Update_partial data m l h d :
  List.length m = 64%nat -> 0 < l mod 64 ->
  Z.of_nat (List.length data) < 64 - l mod 64 ->
  Hash_Update (Z.of_nat (List.length data)) data (mk_ctx m l h d) =
  (tt,
   mk_ctx
     (firstn (Z.to_nat (l mod 64)) m ++ data
        ++ skipn (Z.to_nat (l mod 64) + List.length data) m)
     (u64 (l + Z.of_nat (List.length data))) h d,
   []).
Proof.
  intros Hm Hl Hd. unfold Hash_Update. run.
  rewrite index_mod. unfold sha256_block_size.
  destruct (Z.eqb_spec (l mod 64) 0) as [E|_]; [lia|].
  destruct (Z.ltb_spec (Z.of_nat (List.length data)) (64 - l mod 64)) as [_|E]; [|lia].
  run.
  rewrite copy_loop; rewrite ?Nat2Z.id; try lia.
  rewrite firstn_all. reflexivity.
Qed.

(** The first [if] of [Hash_Update] when the chunk fills the buffer: the
    buffer is compressed and the rest of the chunk goes on. *)
Lemma Hash_Update_fill data m l h d :
  List.length m = 64%nat -> 0 < l mod 64 ->
  64 - l mod 64 <= Z.of_nat (List.length data) ->
  Hash_Update (Z.of_nat (List.length data)) data (mk_ctx m l h d) =
  (tt,
   mk_ctx
     (tail (skipn (Z.to_nat (64 - l mod 64)) data)
        ++ skipn (List.length (tail (skipn (Z.to_nat (64 - l mod 64)) data)))
             (firstn (Z.to_nat (l mod 64)) m ++ firstn (Z.to_nat (64 - l mod 64)) data))
     (u64 (l + Z.of_nat (List.length data)))
     (fold_left sha256_process_block (blocks (skipn (Z.to_nat (64 - l mod 64)) data))
        (sha256_process_block h
           (firstn (Z.to_nat (l mod 64)) m ++ firstn (Z.to_nat (64 - l mod 64)) data)))
     d,
   (firstn (Z.to_nat (l mod 64)) m ++ firstn (Z.to_nat (64 - l mod 64)) data)
     :: blocks (skipn (Z.to_nat (64 - l mod 64)) data)).
Proof.
  intros Hm Hl Hd. unfold Hash_Update. run.
  rewrite index_mod. unfold sha256_block_size.
  pose proof (Z.mod_pos_bound l 64 ltac:(lia)) as Hb.
  destruct (Z.eqb_spec (l mod 64) 0) as [E|_]; [lia|].
  destruct (Z.ltb_spec (Z.of_nat (List.length data)) (64 - l mod 64)) as [E|_]; [lia|].
  run.
  rewrite copy_loop; try lia.
  replace (Z.to_nat (l mod 64) + Z.to_nat (64 - l mod 64))%nat with (List.length m) by lia.
  rewrite skipn_all, app_nil_r.
  set (B := firstn (Z.to_nat (l mod 64)) m ++ firstn (Z.to_nat (64 - l mod 64)) data).
  assert (HB : List.length B = 64%nat).
  { unfold B. rewrite length_app, !length_firstn. lia. }
  replace (firstn 64 B) with B by (rewrite <- HB; symmetry; apply firstn_all).
  set (rest := skipn (Z.to_nat (64 - l mod 64)) data).
  replace (Z.of_nat (List.length data) - (64 - l mod 64)) with (Z.of_nat (List.length rest))
    by (unfold rest; rewrite length_skipn; lia).
  rewrite update_rest by exact HB.
  reflexivity.
Qed.

(** [Hash_Update] in one statement: the buffered bytes followed by the
    chunk are cut into blocks, the blocks are compressed in order, and what
    is left is buffered. *)
Lemma Hash_Update_run c data :
  buffer_ok c ->
  exists m',
    Hash_Update (Z.of_nat (List.length data)) data c =
      (tt,
       mk_ctx m' (u64 (length c + Z.of_nat (List.length data)))
         (fold_left sha256_process_block (blocks (pending c ++ data)) (hash c))
         (digest_length c),
       blocks (pending c ++ data)) /\
    List.length m' = 64%nat /\
    firstn (List.length (tail (pending c ++ data))) m' = tail (pending c ++ data).
Proof.
  destruct c as [m l h d]. unfold buffer_ok, pending. cbn [message length hash digest_length].
  intros Hm.
  pose proof (Z.mod_pos_bound l 64 ltac:(lia)) as Hb.
  destruct (blocks_spec (firstn (Z.to_nat (l mod 64)) m ++ data)) as (_ & HT & _).
  destruct (Z.eq_dec (l mod 64) 0) as [E0|E0].
  - rewrite E0. cbn [Z.to_nat firstn app].
    eexists. split; [apply Hash_Update_aligned; assumption|].
    destruct (blocks_spec data) as (_ & T & _).
    split.
    + rewrite length_app, length_skipn. lia.
    + apply firstn_app_exact.
  - destruct (Z.lt_ge_cases (Z.of_nat (List.length data)) (64 - l mod 64)) as [Hd|Hd].
    + destruct (blocks_short (firstn (Z.to_nat (l mod 64)) m ++ data)) as [EB ET].
      { rewrite length_app, length_firstn. lia. }
      rewrite EB, ET.
      eexists. split; [apply Hash_Update_partial; assumption || lia|].
      split.
      * rewrite !length_app, length_firstn, length_skipn. lia.
      * rewrite app_assoc. apply firstn_app_exact.
    + set (B := firstn (Z.to_nat (l mod 64)) m ++ firstn (Z.to_nat (64 - l mod 64)) data).
      set (rest := skipn (Z.to_nat (64 - l mod 64)) data).
      assert (HB : List.length B = 64%nat).
      { unfold B. rewrite length_app, !length_firstn. lia. }
      assert (EA : firstn (Z.to_nat (l mod 64)) m ++ data = B ++ rest).
      { unfold B, rest. rewrite <- app_assoc, firstn_skipn. reflexivity. }
      rewrite EA.
      destruct (blocks_cons B rest HB) as [EB ET]. rewrite EB, ET.
      destruct (blocks_spec rest) as (_ & T & _).
      rewrite fold_left_cons.
      rewrite Hash_Update_fill by (assumption || lia). fold B rest.
      eexists. split; [reflexivity|].
      split.
      * rewrite length_app, length_skipn. lia.
      * apply firstn_app_exact.
Qed.

(** ** [Hash_Final] *)

Lemma le_split_combine_short l n :
  (List.length l <= n)%nat ->
  le_split n (le_combine l) = l ++ repeat Byte.x00 (n - List.length l).
Proof.
  intros H. rewrite <- (le_combine_app_0 l (n - List.length l)).
  apply split_le_combine'. rewrite length_app, repeat_length. lia.
Qed.

Lemma le_split_add n : forall m z,
  le_split (n + m) z = le_split n z ++ le_split m (Z.shiftr z (8 * Z.of_nat n)).
Proof.
  induction n as [|n IH]; intros m z.
  - cbn [Nat.add app]. change (le_split 0 z) with (@nil byte). rewrite Z.shiftr_0_r. reflexivity.
  - change (le_split (S n + m) z)
      with (byte.of_Z z :: le_split (n + m) (Z.shiftr z 8)).
    change (le_split (S n) z) with (byte.of_Z z :: le_split n (Z.shiftr z 8)).
    rewrite IH, Z.shiftr_shiftr by lia. cbn [app].
    replace (8 * Z.of_nat (S n)) with (8 + 8 * Z.of_nat n) by lia. reflexivity.
Qed.

Lemma le_split_bswap_32 x : le_split 4 (bswap_32 x) = rev (le_split 4 x).
Proof.
  unfold bswap_32. apply split_le_combine'.
  rewrite length_rev, length_le_split. reflexivity.
Qed.

Lemma shift_mod x : Z.land (u32 x) 3 = x mod 4.
Proof.
  change 3 with (Z.ones 2). rewrite Z.land_ones by lia. unfold u32.
  apply Z.mod_mod_divide. exists (2 ^ 30). reflexivity.
Qed.

(** The two stores that clear the stale bytes of the current word and set
    the padding byte. *)
Lemma pad_word bs s :
  List.length bs = 4%nat -> (s < 4)%nat ->
  le_split 4
    (Z.lxor
       (Z.land (le_combine bs) (not32 (shl32 0xFFFFFFFF (Z.of_nat s * 8)))
        mod 2 ^ (Z.of_nat 4 * 8))
       (shl32 0x80 (Z.of_nat s * 8))) =
  firstn s bs ++ [Byte.x80] ++ repeat Byte.x00 (3 - s).
Proof.
  intros L Hs.
  assert (Hmask : not32 (shl32 0xFFFFFFFF (Z.of_nat s * 8)) = Z.ones (8 * Z.of_nat s)).
  { destruct s as [|[|[|[|s]]]]; try lia; reflexivity. }
  assert (Hbit : shl32 0x80 (Z.of_nat s * 8) =
                 Z.shiftl (le_combine [Byte.x80]) (Z.of_nat (List.length (firstn s bs)) * 8)).
  { rewrite length_firstn, L. replace (Nat.min s 4) with s by lia.
    destruct s as [|[|[|[|s]]]]; try lia; reflexivity. }
  rewrite Hmask, Hbit, Z.land_ones by lia.
  rewrite <- le_combine_firstn.
  pose proof (le_combine_bound (firstn s bs)) as B.
  rewrite length_firstn, L in B. replace (Nat.min s 4) with s in B by lia.
  rewrite Z.mod_small.
  2:{ split; [lia|]. eapply Z.lt_le_trans; [apply B|].
      apply Z.pow_le_mono_r; lia. }
  rewrite Z.lxor_lor.
  - rewrite <- le_combine_app.
    rewrite le_split_combine_short by (rewrite length_app, length_firstn; cbn; lia).
    rewrite length_app, length_firstn, L. cbn [List.length].
    replace (4 - (Nat.min s 4 + 1))%nat with (3 - s)%nat by lia.
    rewrite <- app_assoc. reflexivity.
  - rewrite length_firstn, L. replace (Nat.min s 4) with s by lia.
    rewrite <- (Z.mod_small (le_combine (firstn s bs)) (2 ^ (8 * Z.of_nat s))) by exact B.
    replace (Z.of_nat s * 8) with (8 * Z.of_nat s) by lia.
    bits.
Qed.

(** The length field: words 14 and 15 hold the bit count, big-endian. *)
Lemma length_words l :
  le_split 4 (bswap_32 (u32 (Z.shiftr l 29)))
    ++ le_split 4 (bswap_32 (u32 (u64 (Z.shiftl l 3)))) =
  be64 (u64 (l * 8)).
Proof.
  unfold be64. change 8%nat with (4 + 4)%nat.
  rewrite le_split_add, rev_app_distr, !le_split_bswap_32.
  f_equal; f_equal.
  - rewrite (le_split_mod (Z.shiftr (u64 (l * 8)) _)).
    unfold u32, u64. f_equal.
    change (Z.of_nat 4 * 8) with 32. change (8 * Z.of_nat 4) with 32.
    rewrite <- (Z.mod_mod (Z.shiftr l 29) (2 ^ 32)) by lia.
    f_equal. change 8 with (2 ^ 3). rewrite <- Z.shiftl_mul_pow2 by lia.
    bits.
  - rewrite (le_split_mod (u64 (l * 8))).
    unfold u32, u64. f_equal.
    rewrite Z.shiftl_mul_pow2 by lia. reflexivity.
Qed.

(** A zero-fill loop clears [k] words and leaves the rest of the buffer. *)
Lemma zero_words_run k : forall fuel index A Zs C,
  0 <= index -> List.length A = Z.to_nat (4 * index) ->
  List.length Zs = (4 * k)%nat -> (k <= fuel)%nat ->
  zero_words fuel index (index + Z.of_nat k) (A ++ Zs ++ C) =
  (A ++ repeat Byte.x00 (4 * k) ++ C, index + Z.of_nat k).
Proof.
  induction k as [|k IH]; intros fuel index A Zs C Hi HA HZ Hf.
  - destruct Zs; [|discriminate HZ]. cbn [repeat app Nat.mul].
    rewrite Z.add_0_r. destruct fuel as [|fuel]; [reflexivity|].
    cbn [zero_words]. rewrite Z.ltb_irrefl. reflexivity.
  - destruct fuel as [|fuel]; [lia|].
    cbn [zero_words].
    destruct (Z.ltb_spec index (index + Z.of_nat (S k))) as [_|E]; [|lia].
    destruct Zs as [|z0 [|z1 [|z2 [|z3 Zs]]]]; try (cbn in HZ; lia).
    change (z0 :: z1 :: z2 :: z3 :: Zs) with ([z0; z1; z2; z3] ++ Zs).
    rewrite <- (app_assoc [z0; z1; z2; z3]).
    rewrite store32_app by (assumption || reflexivity).
    change (le_split 4 0) with (repeat Byte.x00 4).
    replace (index + Z.of_nat (S k)) with (index + 1 + Z.of_nat k) by lia.
    rewrite (app_assoc A), IH; try lia.
    + rewrite <- !app_assoc.
      replace (4 * S k)%nat with (4 + 4 * k)%nat by lia.
      rewrite repeat_app, <- app_assoc. reflexivity.
    + rewrite length_app, repeat_length. lia.
    + cbn in HZ. lia.
Qed.

(** The loop that byte-swaps the eight words of the state. *)
Lemma bswap_hash h :
  List.length h = 8%nat ->
  fold_left (fun h i => upd i (bswap_32 (get h i)) h) [7; 6; 5; 4; 3; 2; 1; 0] h =
  map bswap_32 h.
Proof.
  intros L.
  destruct h as [|a [|b [|c [|d [|e [|f [|g [|i [|]]]]]]]]]; try discriminate L.
  reflexivity.
Qed.

Lemma output_fold hb : forall n,
  (n <= List.length hb)%nat ->
  fold_left (fun out j => out ++ [byte_at hb (Z.of_nat j)]) (seq 0 n) [] = firstn n hb.
Proof.
  induction n as [|n IH]; intros H; [reflexivity|].
  rewrite seq_S, fold_left_app, IH by lia. cbn [fold_left Nat.add].
  unfold byte_at. rewrite Nat2Z.id.
  symmetry. apply firstn_S_nth. lia.
Qed.

(** The loop that copies the digest to [output]. *)
Lemma output_loop hb n :
  0 <= n <= 255 -> (Z.to_nat n <= List.length hb)%nat ->
  for_u8 256 0 n (fun i output => output ++ [byte_at hb i]) [] = firstn (Z.to_nat n) hb.
Proof.
  intros Hn Hl. rewrite for_u8_fold by lia.
  rewrite Z.sub_0_r. change (Z.to_nat 0) with 0%nat.
  apply output_fold. assumption.
Qed.

Lemma hash_bytes_length h : List.length (hash_bytes h) = (4 * List.length h)%nat.
Proof.
  unfold hash_bytes. induction h as [|x h IH]; [reflexivity|].
  cbn [flat_map List.length]. rewrite length_app, length_le_split, IH. lia.
Qed.

(** The buffer after the two assignments to [message[index]]: the valid
    bytes, the padding byte, zeros to the end of the word, and the words
    after it untouched. *)
Lemma pad_start m l :
  List.length m = 64%nat ->
  store32
    (store32 m (Z.shiftr (l mod 64) 2)
       (Z.land (load32 m (Z.shiftr (l mod 64) 2))
          (not32 (shl32 0xFFFFFFFF (l mod 4 * 8)))))
    (Z.shiftr (l mod 64) 2)
    (Z.lxor
       (load32
          (store32 m (Z.shiftr (l mod 64) 2)
             (Z.land (load32 m (Z.shiftr (l mod 64) 2))
                (not32 (shl32 0xFFFFFFFF (l mod 4 * 8)))))
          (Z.shiftr (l mod 64) 2))
       (shl32 0x80 (l mod 4 * 8))) =
  firstn (Z.to_nat (l mod 64)) m ++ [Byte.x80]
    ++ repeat Byte.x00 (3 - Z.to_nat (l mod 4))
    ++ skipn (4 * Z.to_nat (l mod 64 / 4) + 4) m.
Proof.
  intros Hm.
  rewrite Z.shiftr_div_pow2 by lia. change (2 ^ 2) with 4.
  pose proof (Z.mod_pos_bound l 64 ltac:(lia)) as Hn.
  pose proof (Z.mod_pos_bound l 4 ltac:(lia)) as Hs.
  assert (Hns : l mod 64 = 4 * (l mod 64 / 4) + l mod 4).
  { rewrite <- (Z.mod_mod_divide l 64 4) by (exists 16; reflexivity).
    apply Z.div_mod. lia. }
  set (q := l mod 64 / 4) in *.
  assert (Hq : 0 <= q < 16) by lia.
  set (A := firstn (Z.to_nat (4 * q)) m).
  set (Bw := firstn 4 (skipn (Z.to_nat (4 * q)) m)).
  set (C := skipn (4 * Z.to_nat q + 4) m).
  assert (HA : List.length A = Z.to_nat (4 * q)) by (unfold A; rewrite length_firstn; lia).
  assert (HB : List.length Bw = 4%nat)
    by (unfold Bw; rewrite length_firstn, length_skipn; lia).
  assert (Em : m = A ++ Bw ++ C).
  { unfold A, Bw, C.
    replace (4 * Z.to_nat q + 4)%nat with (4 + Z.to_nat (4 * q))%nat by lia.
    rewrite <- skipn_skipn, firstn_skipn, firstn_skipn. reflexivity. }
  rewrite Em at 1 2 3 4.
  rewrite !(store32_app A Bw C), load32_app, (load32_app A (le_split 4 _) C), store32_app
    by (assumption || apply length_le_split).
  rewrite le_combine_split.
  replace (l mod 4 * 8) with (Z.of_nat (Z.to_nat (l mod 4)) * 8) by lia.
  rewrite pad_word by (assumption || lia).
  rewrite <- !app_assoc, (app_assoc A). f_equal.
  unfold A, Bw. rewrite firstn_firstn.
  replace (Nat.min (Z.to_nat (l mod 4)) 4) with (Z.to_nat (l mod 4)) by lia.
  rewrite firstn_skipn_add. f_equal. lia.
Qed.

(** The two assignments to [message[14]] and [message[15]]. *)
Lemma length_stores P T a b :
  List.length P = 56%nat -> List.length T = 8%nat ->
  store32 (store32 (P ++ T) 14 a) 15 b = P ++ le_split 4 a ++ le_split 4 b.
Proof.
  intros HP HT.
  destruct T as [|t0 [|t1 [|t2 [|t3 [|t4 [|t5 [|t6 [|t7 [|]]]]]]]]]; try discriminate HT.
  change [t0; t1; t2; t3; t4; t5; t6; t7] with ([t0; t1; t2; t3] ++ [t4; t5; t6; t7] ++ []).
  rewrite store32_app by (assumption || reflexivity).
  rewrite (app_assoc P), store32_app.
  - rewrite app_nil_r, <- app_assoc. reflexivity.
  - rewrite length_app, length_le_split, HP. reflexivity.
  - reflexivity.
Qed.

(** The end of [Hash_Final], from the second [while] on, for a buffer whose
    words below [index] are [A]. *)
Lemma final_tail index m3 A Zs T l h d :
  m3 = A ++ Zs ++ T ->
  0 <= index <= 14 -> 0 <= d <= 32 ->
  List.length A = Z.to_nat (4 * index) ->
  List.length Zs = (4 * Z.to_nat (14 - index))%nat -> List.length T = 8%nat ->
  (let '(m0, _) := zero_words 16 index 14 m3 in
   set_message m0;;
   c0 <- get_ctx;;
   set_message (store32 (message c0) 14 (bswap_32 (u32 (Z.shiftr (length c0) 29))));;
   c1 <- get_ctx;;
   set_message (store32 (message c1) 15 (bswap_32 (u32 (u64 (Z.shiftl (length c1) 3)))));;
   c2 <- get_ctx;;
   process_block (message c2);;
   c3 <- get_ctx;;
   set_hash
     (fold_left (fun h0 i => upd i (bswap_32 (get h0 i)) h0) [7; 6; 5; 4; 3; 2; 1; 0]
        (hash c3));;
   c4 <- get_ctx;;
   ret
     (for_u8 256 0 (digest_length c4)
        (fun i output => output ++ [byte_at (hash_bytes (hash c4)) i]) []))
    (mk_ctx m3 l h d) =
  (firstn (Z.to_nat d)
     (hash_bytes
        (map bswap_32
           (sha256_process_block h
              (A ++ repeat Byte.x00 (4 * Z.to_nat (14 - index)) ++ be64 (u64 (l * 8)))))),
   mk_ctx (A ++ repeat Byte.x00 (4 * Z.to_nat (14 - index)) ++ be64 (u64 (l * 8))) l
     (map bswap_32
        (sha256_process_block h
           (A ++ repeat Byte.x00 (4 * Z.to_nat (14 - index)) ++ be64 (u64 (l * 8)))))
     d,
   [A ++ repeat Byte.x00 (4 * Z.to_nat (14 - index)) ++ be64 (u64 (l * 8))]).
Proof.
  intros -> Hi Hd HA HZ HT.
  replace (zero_words 16 index 14 (A ++ Zs ++ T))
    with (zero_words 16 index (index + Z.of_nat (Z.to_nat (14 - index))) (A ++ Zs ++ T))
    by (f_equal; lia).
  rewrite zero_words_run by (assumption || lia).
  run.
  rewrite (app_assoc A), length_stores, length_words.
  2:{ rewrite length_app, repeat_length. lia. }
  2:{ assumption. }
  rewrite <- app_assoc.
  set (blk := A ++ repeat Byte.x00 (4 * Z.to_nat (14 - index)) ++ be64 (u64 (l * 8))).
  assert (Hblk : List.length blk = 64%nat).
  { unfold blk, be64. rewrite !length_app, repeat_length, length_rev, length_le_split. lia. }
  replace (firstn 64 blk) with blk by (rewrite <- Hblk; symmetry; apply firstn_all).
  rewrite bswap_hash by apply process_block_length.
  unfold ret. cbv beta iota zeta.
  rewrite output_loop.
  - reflexivity.
  - lia.
  - rewrite hash_bytes_length, length_map, process_block_length. lia.
Qed.

(** [Hash_Final] in one statement: it compresses the blocks of the padding
    as specified, leaves the last of them in the buffer and the byte-swapped
    state in [hash], and returns the first [digest_length] bytes of that
    state. *)
Lemma Hash_Final_run c :
  buffer_ok c -> 0 <= digest_length c <= 32 ->
  Hash_Final c =
  (firstn (Z.to_nat (digest_length c))
     (hash_bytes (map bswap_32 (fold_left sha256_process_block (final_blocks c) (hash c)))),
   mk_ctx (last (final_blocks c) []) (length c)
     (map bswap_32 (fold_left sha256_process_block (final_blocks c) (hash c)))
     (digest_length c),
   final_blocks c).
Proof.
  destruct c as [m l h d]. unfold buffer_ok, final_blocks, pending.
  cbn [message length hash digest_length]. intros Hm Hd.
  unfold Hash_Final. run.
  rewrite !index_mod, !shift_mod, pad_start by assumption.
  rewrite Z.shiftr_div_pow2 by lia. change (2 ^ 2) with 4.
  pose proof (Z.mod_pos_bound l 64 ltac:(lia)) as Hn.
  pose proof (Z.mod_pos_bound l 4 ltac:(lia)) as Hs.
  assert (Hns : l mod 64 = 4 * (l mod 64 / 4) + l mod 4).
  { rewrite <- (Z.mod_mod_divide l 64 4) by (exists 16; reflexivity).
    apply Z.div_mod. lia. }
  set (n := l mod 64) in *. set (q := n / 4) in *. set (s := l mod 4) in *.
  set (C := skipn (4 * Z.to_nat q + 4) m).
  assert (HC : List.length C = (60 - 4 * Z.to_nat q)%nat)
    by (unfold C; rewrite length_skipn; lia).
  set (A := firstn (Z.to_nat n) m ++ [Byte.x80] ++ repeat Byte.x00 (3 - Z.to_nat s)).
  assert (HA : List.length A = Z.to_nat (4 * (q + 1))).
  { unfold A. rewrite !length_app, length_firstn, repeat_length. cbn [List.length]. lia. }
  replace (firstn (Z.to_nat n) m ++ [Byte.x80] ++ repeat Byte.x00 (3 - Z.to_nat s) ++ C)
    with (A ++ C) by (unfold A; rewrite <- !app_assoc; reflexivity).
  destruct (Z.ltb_spec 14 (q + 1)) as [Hq|Hq].
  - destruct (Nat.ltb_spec (Z.to_nat n) 56) as [Hn'|Hn']; [lia|].
    run.
    replace (zero_words 16 (q + 1) 16 (A ++ C))
      with (zero_words 16 (q + 1) (q + 1 + Z.of_nat (Z.to_nat (15 - q))) (A ++ C ++ []))
      by (rewrite app_nil_r; f_equal; lia).
    rewrite zero_words_run by (assumption || lia).
    run. rewrite app_nil_r.
    set (blk1 := A ++ repeat Byte.x00 (4 * Z.to_nat (15 - q))).
    assert (Hblk1 : List.length blk1 = 64%nat).
    { unfold blk1. rewrite length_app, repeat_length. lia. }
    replace (firstn 64 blk1) with blk1 by (rewrite <- Hblk1; symmetry; apply firstn_all).
    rewrite (final_tail 0 blk1 [] (firstn 56 blk1) (skipn 56 blk1));
      try (rewrite ?length_firstn, ?length_skipn; cbn; lia).
    2:{ cbn [app]. symmetry. apply firstn_skipn. }
    2:{ rewrite length_firstn, Hblk1. reflexivity. }
    cbn [app Z.to_nat last fold_left].
    replace blk1
      with (firstn (Z.to_nat n) m ++ [Byte.x80] ++ repeat Byte.x00 (63 - Z.to_nat n)).
    + reflexivity.
    + unfold blk1, A. rewrite <- !app_assoc. do 2 f_equal.
      rewrite <- repeat_app. f_equal. lia.
  - destruct (Nat.ltb_spec (Z.to_nat n) 56) as [Hn'|Hn']; [|lia].
    run.
    rewrite (final_tail (q + 1) (A ++ C) A (firstn (4 * Z.to_nat (13 - q)) C)
               (skipn (4 * Z.to_nat (13 - q)) C));
      try (rewrite ?length_firstn, ?length_skipn; lia).
    2:{ rewrite firstn_skipn. reflexivity. }
    cbn [last fold_left].
    replace (A ++ repeat Byte.x00 (4 * Z.to_nat (14 - (q + 1))) ++ be64 (u64 (l * 8)))
      with (firstn (Z.to_nat n) m ++ [Byte.x80] ++ repeat Byte.x00 (55 - Z.to_nat n)
              ++ be64 (u64 (l * 8))).
    + reflexivity.
    + unfold A. rewrite <- !app_assoc. do 2 f_equal.
      rewrite app_assoc, <- repeat_app. do 2 f_equal. lia.
Qed.

(** ** The invariant of the context *)

Lemma u64_mod_64 x : u64 x mod 64 = x mod 64.
Proof. unfold u64. apply Z.mod_mod_divide. exists (2 ^ 58). reflexivity. Qed.

Lemma tail_length_Z M : Z.of_nat (List.length (tail M)) = Z.of_nat (List.length M) mod 64.
Proof.
  rewrite tail_length. rewrite Nat2Z.inj_mod. reflexivity.
Qed.

Lemma ctx_inv_pending M c : ctx_inv M c -> pending c = tail M.
Proof.
  intros (_ & Hn & Hp & _). unfold pending. rewrite Hn, Nat2Z.id. exact Hp.
Qed.

Lemma ctx_inv_init bits c :
  ctx_ok c -> ctx_inv [] (final_ctx (Hash_Init bits c)).
Proof.
  intros [Hc Hh]. rewrite Hash_Init_run by exact Hh.
  unfold final_ctx, ctx_inv, buffer_ok. cbn [fst snd].
  cbn [message length hash digest_length].
  split; [reflexivity|]. split; [reflexivity|]. split; [reflexivity|].
  split; [reflexivity|]. split; [reflexivity | exact Hc].
Qed.

(** One [Hash_Update] keeps the invariant and compresses the blocks that the
    chunk completes. *)
Lemma ctx_inv_update M c data :
  ctx_inv M c ->
  ctx_inv (M ++ data) (final_ctx (Hash_Update (Z.of_nat (List.length data)) data c)) /\
  result (Hash_Update (Z.of_nat (List.length data)) data c) = tt /\
  compressed (Hash_Update (Z.of_nat (List.length data)) data c) = blocks (tail M ++ data) /\
  blocks (M ++ data) =
    blocks M ++ compressed (Hash_Update (Z.of_nat (List.length data)) data c).
Proof.
  intros I. pose proof (ctx_inv_pending M c I) as HP.
  destruct I as (Hl & Hn & Hp & Hh & Hd & Hb).
  destruct (Hash_Update_run c data Hb) as (m' & E & Lm & Tm).
  rewrite E, HP in *. unfold final_ctx, result, compressed. cbn [fst snd].
  destruct (blocks_app M data) as [EB ET].
  assert (EL : u64 (length c + Z.of_nat (List.length data)) =
               u64 (Z.of_nat (List.length (M ++ data)))).
  { rewrite Hl, length_app, Nat2Z.inj_add. unfold u64.
    rewrite Zplus_mod_idemp_l. reflexivity. }
  split; [|split; [reflexivity | split; [reflexivity | exact EB]]].
  unfold ctx_inv, buffer_ok. cbn [message length hash digest_length].
  split; [exact EL|].
  split; [rewrite EL, u64_mod_64; symmetry; apply tail_length_Z|].
  split; [rewrite ET; exact Tm|].
  split; [unfold chaining_value; rewrite EB, fold_left_app, Hh; reflexivity|].
  split; [exact Hd | exact Lm].
Qed.

Lemma Hash_Updates_cons chunk chunks c :
  Hash_Updates (chunk :: chunks) c =
  bind (Hash_Update (Z.of_nat (List.length chunk)) chunk) (fun _ => Hash_Updates chunks) c.
Proof. reflexivity. Qed.

Lemma triple_eta {A : Type} (r : A * sha256_ctx * list (list byte)) :
  r = (result r, final_ctx r, compressed r).
Proof. destruct r as [[a c] t]. reflexivity. Qed.

Lemma ctx_inv_updates chunks : forall M c,
  ctx_inv M c ->
  ctx_inv (M ++ List.concat chunks) (final_ctx (Hash_Updates chunks c)) /\
  blocks (M ++ List.concat chunks) = blocks M ++ compressed (Hash_Updates chunks c).
Proof.
  induction chunks as [|chunk chunks IH]; intros M c I.
  - cbn [List.concat Hash_Updates]. rewrite !app_nil_r. split; [exact I | reflexivity].
  - destruct (ctx_inv_update M c chunk I) as (I1 & _ & _ & B1).
    rewrite Hash_Updates_cons.
    rewrite (bind_run _ _ _ _ _ _ (triple_eta (Hash_Update _ chunk c))).
    destruct (IH (M ++ chunk) _ I1) as (I2 & B2).
    rewrite (triple_eta (Hash_Updates chunks _)).
    unfold final_ctx at 1, compressed at 1. cbn [fst snd List.concat].
    rewrite app_assoc. split; [exact I2|].
    rewrite B2, B1, <- app_assoc. reflexivity.
Qed.

Lemma final_blocks_inv M c1 c2 :
  ctx_inv M c1 -> ctx_inv M c2 -> final_blocks c1 = final_blocks c2.
Proof.
  intros I1 I2. unfold final_blocks.
  rewrite (ctx_inv_pending M c1 I1), (ctx_inv_pending M c2 I2).
  destruct I1 as (Hl1 & _), I2 as (Hl2 & _). rewrite Hl1, Hl2. reflexivity.
Qed.

(** [Hash_Final] reads the valid bytes of the buffer, the length, the state
    and the digest length; nothing else of the context reaches its result. *)
Lemma Hash_Final_inv M c1 c2 :
  ctx_inv M c1 -> ctx_inv M c2 -> Hash_Final c1 = Hash_Final c2.
Proof.
  intros I1 I2. pose proof (final_blocks_inv M c1 c2 I1 I2) as EF.
  destruct I1 as (Hl1 & _ & _ & Hh1 & Hd1 & Hb1).
  destruct I2 as (Hl2 & _ & _ & Hh2 & Hd2 & Hb2).
  rewrite !Hash_Final_run by (assumption || lia).
  rewrite EF, Hl1, Hl2, Hh1, Hh2, Hd1, Hd2. reflexivity.
Qed.

(** Two contexts that differ only in the stale bytes of the buffer. *)
Lemma Hash_Final_stale d1 d2 :
  buffer_ok d1 -> buffer_ok d2 ->
  pending d1 = pending d2 -> length d1 = length d2 -> hash d1 = hash d2 ->
  digest_length d1 = digest_length d2 -> 0 <= digest_length d1 <= 32 ->
  Hash_Final d1 = Hash_Final d2.
Proof.
  intros B1 B2 EP EL EH ED HD.
  rewrite !Hash_Final_run by (assumption || lia).
  unfold final_blocks. rewrite EP, EL, EH, ED. reflexivity.
Qed.

(** ** Properties of the interface *)

Lemma init_updates_inv bits chunks c :
  ctx_ok c ->
  ctx_inv (List.concat chunks) (final_ctx ((Hash_Init bits;; Hash_Updates chunks) c)) /\
  compressed ((Hash_Init bits;; Hash_Updates chunks) c) = blocks (List.concat chunks).
Proof.
  intros Hc.
  rewrite (bind_run _ _ _ _ _ _ (Hash_Init_run bits c (proj2 Hc))).
  pose proof (ctx_inv_init bits c Hc) as I0. rewrite Hash_Init_run in I0 by exact (proj2 Hc).
  unfold final_ctx in I0. cbn [fst snd] in I0.
  destruct (ctx_inv_updates chunks [] _ I0) as (I & B).
  cbn [app] in I, B.
  rewrite (triple_eta (Hash_Updates chunks _)).
  unfold final_ctx at 1, compressed at 1. cbn [fst snd app].
  split; [exact I | symmetry; exact B].
Qed.

(** The whole run of Init, Updates and Final is decided by the bytes fed. *)
Lemma init_updates_final bits chunks c :
  ctx_ok c ->
  exists c1,
    ctx_inv (List.concat chunks) c1 /\
    (Hash_Init bits;; Hash_Updates chunks;; Hash_Final) c =
    (result (Hash_Final c1), final_ctx (Hash_Final c1),
     blocks (List.concat chunks) ++ compressed (Hash_Final c1)).
Proof.
  intros Hc. destruct (init_updates_inv bits chunks c Hc) as (I & B).
  exists (final_ctx ((Hash_Init bits;; Hash_Updates chunks) c)).
  split; [exact I|].
  change ((Hash_Init bits;; Hash_Updates chunks;; Hash_Final) c)
    with (bind (Hash_Init bits) (fun _ => bind (Hash_Updates chunks) (fun _ => Hash_Final)) c).
  rewrite <- bind_assoc.
  rewrite (bind_run _ _ _ _ _ _ (triple_eta ((Hash_Init bits;; Hash_Updates chunks) c))).
  rewrite B.
  rewrite (triple_eta (Hash_Final _)) at 1. reflexivity.
Qed.

Lemma one_chunk bits msg c :
  (Hash_Init bits;; Hash_Update (Z.of_nat (List.length msg)) msg;; Hash_Final) c =
  (Hash_Init bits;; Hash_Updates [msg];; Hash_Final) c.
Proof.
  change (Hash_Updates [msg])
    with (bind (Hash_Update (Z.of_nat (List.length msg)) msg) (fun _ => ret tt)).
  unfold bind, ret.
  destruct (Hash_Init bits c) as [[u c1] t1].
  destruct (Hash_Update _ msg c1) as [[u2 c2] t2].
  destruct (Hash_Final c2) as [[o c3] t3].
  rewrite app_nil_r. reflexivity.
Qed.

Lemma SHA256_Digest_chunks msg c :
  SHA256_Digest (Z.of_nat (List.length msg)) msg c =
  (Hash_Init 256;; Hash_Updates [msg];; Hash_Final) c.
Proof. unfold SHA256_Digest. apply one_chunk. Qed.

Lemma runs_agree bits1 bits2 chunks1 chunks2 c1 c2 :
  ctx_ok c1 -> ctx_ok c2 -> List.concat chunks1 = List.concat chunks2 ->
  (Hash_Init bits1;; Hash_Updates chunks1;; Hash_Final) c1 =
  (Hash_Init bits2;; Hash_Updates chunks2;; Hash_Final) c2.
Proof.
  intros H1 H2 E.
  destruct (init_updates_final bits1 chunks1 c1 H1) as (d1 & I1 & E1).
  destruct (init_updates_final bits2 chunks2 c2 H2) as (d2 & I2 & E2).
  rewrite E in I1, E1.
  rewrite E1, E2, (Hash_Final_inv _ d1 d2 I1 I2). reflexivity.
Qed.

Lemma SHA256_Digest_indep msg c1 c2 :
  ctx_ok c1 -> ctx_ok c2 ->
  SHA256_Digest (Z.of_nat (List.length msg)) msg c1 =
  SHA256_Digest (Z.of_nat (List.length msg)) msg c2.
Proof.
  intros H1 H2. rewrite !SHA256_Digest_chunks.
  apply runs_agree; (assumption || reflexivity).
Qed.

Lemma zero_ctx_ok : ctx_ok zero_ctx.
Proof. split; reflexivity. Qed.

(** * The claims *)

(** Claim C1 (split-invariance).  For every message, given as the
    concatenation of an arbitrary list of chunks (empty chunks included),
    and for every argument of [Hash_Init], the sequence [Hash_Init];
    [Hash_Update] of each chunk in turn; [Hash_Final] returns the same
    digest, leaves the same context (state, total length, buffer, digest
    length) and compresses the same blocks as the one-shot [SHA256_Digest]
    on the whole message.  The message is of a size that fits the
    [uint32_t] parameter of [SHA256_Digest]; the context is any content of
    the storage of the context (64 bytes of buffer, eight words of state). *)
Theorem split_invariance (bits : Z) (chunks : list (list byte)) (c : sha256_ctx) :
  ctx_ok c ->
  Z.of_nat (List.length (List.concat chunks)) < 2 ^ 32 ->
  (Hash_Init bits;; Hash_Updates chunks;; Hash_Final) c =
  SHA256_Digest (Z.of_nat (List.length (List.concat chunks))) (List.concat chunks) c.
Proof.
  intros Hc _. rewrite SHA256_Digest_chunks.
  apply runs_agree; try assumption.
  cbn [List.concat]. rewrite app_nil_r. reflexivity.
Qed.

Lemma split_invariance_witness :
  ctx_ok zero_ctx /\
  Z.of_nat
    (List.length
       (List.concat [bytes_of_string "a"; []; bytes_of_string "bc"])) < 2 ^ 32 /\
  (Hash_Init 224;;
   Hash_Updates [bytes_of_string "a"; []; bytes_of_string "bc"];;
   Hash_Final) zero_ctx =
  SHA256_Digest
    (Z.of_nat (List.length (List.concat [bytes_of_string "a"; []; bytes_of_string "bc"])))
    (List.concat [bytes_of_string "a"; []; bytes_of_string "bc"]) zero_ctx.
Proof.
  split; [split; reflexivity|]. split; [reflexivity|].
  apply (split_invariance 224 [bytes_of_string "a"; []; bytes_of_string "bc"] zero_ctx);
    [split; reflexivity | reflexivity].
Defined.

(** Claim C2 (known vectors).  Whatever the context holds before the call,
    [SHA256_Digest] of the empty message returns the 32 bytes
    e3b0c442...7852b855 and [SHA256_Digest] of the three bytes "abc" returns
    the 32 bytes ba7816bf...f20015ad. *)
Theorem known_vectors (c : sha256_ctx) :
  ctx_ok c ->
  to_hex (result (SHA256_Digest 0 [] c)) =
    "e3b0c44298fc1c149afbf4c8996fb92427ae41e4649b934ca495991b7852b855"%string /\
  List.length (result (SHA256_Digest 0 [] c)) = 32%nat /\
  to_hex (result (SHA256_Digest 3 (bytes_of_string "abc") c)) =
    "ba7816bf8f01cfea414140de5dae2223b00361a396177a9cb410ff61f20015ad"%string /\
  List.length (result (SHA256_Digest 3 (bytes_of_string "abc") c)) = 32%nat.
Proof.
  intros Hc.
  pose proof (SHA256_Digest_indep [] c zero_ctx Hc zero_ctx_ok) as E0.
  pose proof (SHA256_Digest_indep (bytes_of_string "abc") c zero_ctx Hc zero_ctx_ok) as E1.
  change (Z.of_nat (List.length (@nil byte))) with 0 in E0.
  change (Z.of_nat (List.length (bytes_of_string "abc"))) with 3 in E1.
  rewrite E0, E1.
  split; [vm_compute; reflexivity|]. split; [vm_compute; reflexivity|].
  split; vm_compute; reflexivity.
Qed.

Lemma known_vectors_witness :
  ctx_ok zero_ctx /\
  (to_hex (result (SHA256_Digest 0 [] zero_ctx)) =
     "e3b0c44298fc1c149afbf4c8996fb92427ae41e4649b934ca495991b7852b855"%string /\
   List.length (result (SHA256_Digest 0 [] zero_ctx)) = 32%nat /\
   to_hex (result (SHA256_Digest 3 (bytes_of_string "abc") zero_ctx)) =
     "ba7816bf8f01cfea414140de5dae2223b00361a396177a9cb410ff61f20015ad"%string /\
   List.length (result (SHA256_Digest 3 (bytes_of_string "abc") zero_ctx)) = 32%nat).
Proof.
  split; [split; reflexivity|]. apply (known_vectors zero_ctx). split; reflexivity.
Defined.

(** Claim C10 (implicit).  [Hash_Init] ignores its argument: for any two
    arguments and any context (with its eight words of state) the two calls
    give the same result, which has the SHA-256 initial constants as state,
    total length 0 and digest length 32; the buffer is left as it was and
    nothing is compressed. *)
Theorem Hash_Init_ignores_bits (b1 b2 : Z) (c : sha256_ctx) :
  List.length (hash c) = 8%nat ->
  Hash_Init b1 c = Hash_Init b2 c /\
  hash (final_ctx (Hash_Init b1 c)) = SHA256_H0 /\
  length (final_ctx (Hash_Init b1 c)) = 0 /\
  digest_length (final_ctx (Hash_Init b1 c)) = sha256_hash_size /\
  sha256_hash_size = 32 /\
  message (final_ctx (Hash_Init b1 c)) = message c /\
  compressed (Hash_Init b1 c) = [].
Proof.
  intros L. split; [reflexivity|].
  rewrite (Hash_Init_run b1 c L). unfold final_ctx, compressed.
  cbn [fst snd message length hash digest_length].
  repeat (split; [reflexivity|]). reflexivity.
Qed.

Lemma Hash_Init_ignores_bits_witness :
  List.length (hash stale_ctx) = 8%nat /\
  Hash_Init 224 stale_ctx = Hash_Init 256 stale_ctx /\
  hash (final_ctx (Hash_Init 224 stale_ctx)) = SHA256_H0 /\
  length (final_ctx (Hash_Init 224 stale_ctx)) = 0 /\
  digest_length (final_ctx (Hash_Init 224 stale_ctx)) = 32.
Proof.
  assert (H1 : List.length (hash stale_ctx) = 8%nat) by reflexivity.
  destruct (Hash_Init_ignores_bits 224 256 stale_ctx H1) as (E & Hh & Hl & Hd & _).
  exact (conj H1 (conj E (conj Hh (conj Hl Hd)))).
Defined.

(** Claim C3, refuted as stated: from the all-zero context, [Hash_Init(224)]
    leaves the SHA-256 constants in the state, not the SHA-224 ones, sets the
    digest length to 32, not 28, and the digest of "abc" that follows is not
    the SHA-224 digest 23097d22...e36c9da7. *)
Lemma sha224_variant_counterexample :
  hash (final_ctx (Hash_Init 224 zero_ctx)) <> SHA224_H0 /\
  digest_length (final_ctx (Hash_Init 224 zero_ctx)) <> sha224_hash_size /\
  to_hex
    (result
       ((Hash_Init 224;; Hash_Update 3 (bytes_of_string "abc");; Hash_Final) zero_ctx)) <>
    "23097d223405d8228642a477bda255b32aadbce4bda0b3f7e36c9da7"%string.
Proof.
  split; [|split]; vm_compute; discriminate.
Qed.

(** Claim C3, amended: [Hash_Init] with argument 224 sets the eight state
    words to the SHA-256 initial constants (which differ from the SHA-224
    ones) and the digest length to 32, so that [Hash_Init(224)];
    [Hash_Update("abc")]; [Hash_Final] yields the 32-byte SHA-256 digest
    ba7816bf...f20015ad. *)
Theorem sha224_variant_is_sha256 (c : sha256_ctx) :
  ctx_ok c ->
  hash (final_ctx (Hash_Init 224 c)) = SHA256_H0 /\
  SHA256_H0 = FIPS.H0_256 /\
  SHA256_H0 <> SHA224_H0 /\
  digest_length (final_ctx (Hash_Init 224 c)) = 32 /\
  to_hex
    (result ((Hash_Init 224;; Hash_Update 3 (bytes_of_string "abc");; Hash_Final) c)) =
    "ba7816bf8f01cfea414140de5dae2223b00361a396177a9cb410ff61f20015ad"%string /\
  List.length
    (result ((Hash_Init 224;; Hash_Update 3 (bytes_of_string "abc");; Hash_Final) c)) =
    32%nat.
Proof.
  intros Hc.
  rewrite (Hash_Init_run 224 c (proj2 Hc)). unfold final_ctx at 1 2.
  cbn [fst snd hash digest_length].
  split; [reflexivity|]. split; [exact SHA256_H0_standard|].
  split; [discriminate|]. split; [reflexivity|].
  assert (E : (Hash_Init 224;; Hash_Update 3 (bytes_of_string "abc");; Hash_Final) c =
              (Hash_Init 224;; Hash_Update 3 (bytes_of_string "abc");; Hash_Final) zero_ctx).
  { change 3 with (Z.of_nat (List.length (bytes_of_string "abc"))).
    rewrite !one_chunk. apply runs_agree; [assumption | exact zero_ctx_ok | reflexivity]. }
  rewrite E. split; vm_compute; reflexivity.
Qed.

Lemma sha224_variant_is_sha256_witness :
  ctx_ok zero_ctx /\
  (hash (final_ctx (Hash_Init 224 zero_ctx)) = SHA256_H0 /\
   SHA256_H0 = FIPS.H0_256 /\
   SHA256_H0 <> SHA224_H0 /\
   digest_length (final_ctx (Hash_Init 224 zero_ctx)) = 32 /\
   to_hex
     (result
        ((Hash_Init 224;; Hash_Update 3 (bytes_of_string "abc");; Hash_Final) zero_ctx)) =
     "ba7816bf8f01cfea414140de5dae2223b00361a396177a9cb410ff61f20015ad"%string /\
   List.length
     (result
        ((Hash_Init 224;; Hash_Update 3 (bytes_of_string "abc");; Hash_Final) zero_ctx)) =
     32%nat).
Proof.
  split; [split; reflexivity|].
  apply (sha224_variant_is_sha256 zero_ctx). split; reflexivity.
Defined.

(** The digest that claim C3 names is the one the compression function of
    the source gives from the SHA-224 initial value on the padded block of
    "abc", cut to 28 bytes: the constants and the expected digest of the
    claim are the standard ones. *)
Lemma sha224_abc_reference :
  to_hex
    (firstn 28
       (hash_bytes
          (map bswap_32
             (sha256_process_block SHA224_H0
                (bytes_of_string "abc" ++ [Byte.x80] ++ repeat Byte.x00 52
                   ++ be64 24))))) =
  "23097d223405d8228642a477bda255b32aadbce4bda0b3f7e36c9da7"%string.
Proof. vm_compute. reflexivity. Qed.

(** Claim C9 (no leakage from prior state).  For any two contents of the
    context and any message of a size that fits [uint32_t], [SHA256_Digest]
    on the message returns the same digest from either context, and leaves
    the same context and the same record of compressed blocks: nothing of the
    prior state reaches the result.  [Hash_Init] resets length and state,
    and [Hash_Final] gives the same result from any two contexts that agree
    on the valid bytes of the buffer, the length, the state and the digest
    length, whatever stale bytes follow the valid ones. *)
Theorem no_leakage (c1 c2 : sha256_ctx) (msg : list byte) (d1 d2 : sha256_ctx) :
  ctx_ok c1 -> ctx_ok c2 -> Z.of_nat (List.length msg) < 2 ^ 32 ->
  buffer_ok d1 -> buffer_ok d2 ->
  pending d1 = pending d2 -> length d1 = length d2 -> hash d1 = hash d2 ->
  digest_length d1 = digest_length d2 -> 0 <= digest_length d1 <= 32 ->
  SHA256_Digest (Z.of_nat (List.length msg)) msg c1 =
    SHA256_Digest (Z.of_nat (List.length msg)) msg c2 /\
  length (final_ctx (Hash_Init 256 c1)) = 0 /\
  hash (final_ctx (Hash_Init 256 c1)) = SHA256_H0 /\
  Hash_Final d1 = Hash_Final d2.
Proof.
  intros H1 H2 _ B1 B2 EP EL EH ED HD.
  split; [apply SHA256_Digest_indep; assumption|].
  rewrite (Hash_Init_run 256 c1 (proj2 H1)).
  split; [reflexivity|]. split; [reflexivity|].
  apply Hash_Final_stale; assumption.
Qed.

Lemma no_leakage_witness :
  ctx_ok zero_ctx /\ ctx_ok stale_ctx /\
  Z.of_nat (List.length abc) < 2 ^ 32 /\
  buffer_ok abc_ctx_ff /\ buffer_ok abc_ctx_00 /\
  pending abc_ctx_ff = pending abc_ctx_00 /\
  message abc_ctx_ff <> message abc_ctx_00 /\
  SHA256_Digest (Z.of_nat (List.length abc)) abc zero_ctx =
    SHA256_Digest (Z.of_nat (List.length abc)) abc stale_ctx /\
  Hash_Final abc_ctx_ff = Hash_Final abc_ctx_00.
Proof.
  assert (H1 : ctx_ok zero_ctx) by (split; reflexivity).
  assert (H2 : ctx_ok stale_ctx) by (split; reflexivity).
  assert (H3 : Z.of_nat (List.length abc) < 2 ^ 32) by reflexivity.
  assert (B1 : buffer_ok abc_ctx_ff) by reflexivity.
  assert (B2 : buffer_ok abc_ctx_00) by reflexivity.
  assert (EP : pending abc_ctx_ff = pending abc_ctx_00) by reflexivity.
  assert (NE : message abc_ctx_ff <> message abc_ctx_00) by discriminate.
  assert (HD : 0 <= digest_length abc_ctx_ff <= 32) by (cbn; lia).
  destruct (no_leakage zero_ctx stale_ctx abc abc_ctx_ff abc_ctx_00
              H1 H2 H3 B1 B2 EP eq_refl eq_refl eq_refl HD) as (E & _ & _ & F).
  exact (conj H1 (conj H2 (conj H3 (conj B1 (conj B2 (conj EP (conj NE (conj E F)))))))).
Defined.

(** Claim C8 (partial-fill frame).  When [Hash_Update] is called with
    [index = length mod 64 > 0] and a chunk strictly shorter than
    [64 - index], it returns with the eight state words unchanged and no call
    of the compression function, the total length increased by exactly the
    size of the chunk, the chunk copied into the buffer at offset [index] and
    the bytes of the buffer outside [index, index + size) unchanged. *)
Theorem partial_fill_frame (c : sha256_ctx) (data : list byte) :
  buffer_ok c -> 0 <= length c < 2 ^ 64 ->
  0 < Z.land (u32 (length c)) 63 ->
  Z.of_nat (List.length data) < 64 - Z.land (u32 (length c)) 63 ->
  let index := Z.to_nat (Z.land (u32 (length c)) 63) in
  let r := Hash_Update (Z.of_nat (List.length data)) data c in
  Z.land (u32 (length c)) 63 = length c mod 64 /\
  hash (final_ctx r) = hash c /\
  compressed r = [] /\
  length (final_ctx r) = length c + Z.of_nat (List.length data) /\
  digest_length (final_ctx r) = digest_length c /\
  message (final_ctx r) =
    firstn index (message c) ++ data ++ skipn (index + List.length data) (message c) /\
  (forall j, (j < List.length data)%nat ->
     nth (index + j) (message (final_ctx r)) Byte.x00 = nth j data Byte.x00) /\
  (forall i, (i < index)%nat \/ (index + List.length data <= i)%nat ->
     nth i (message (final_ctx r)) Byte.x00 = nth i (message c) Byte.x00).
Proof.
  intros Hm Hl Hi Hd index r. revert Hm Hl Hi Hd. subst index r.
  destruct c as [m l h d]. unfold buffer_ok. cbn [message length hash digest_length].
  rewrite index_mod. intros Hm Hl Hi Hd.
  set (index := Z.to_nat (l mod 64)).
  set (r := Hash_Update (Z.of_nat (List.length data)) data (mk_ctx m l h d)).
  assert (Er : r =
    (tt,
     mk_ctx (firstn index m ++ data ++ skipn (index + List.length data) m)
       (u64 (l + Z.of_nat (List.length data))) h d,
     [])).
  { unfold r, index. apply Hash_Update_partial; assumption. }
  rewrite Er. unfold final_ctx, compressed. cbn [fst snd message length hash digest_length].
  assert (Hidx : (index + List.length data < 64)%nat) by (unfold index; lia).
  assert (Hf : List.length (firstn index m) = index) by (rewrite length_firstn; lia).
  split; [reflexivity|]. split; [reflexivity|]. split; [reflexivity|].
  split.
  { unfold u64. apply Z.mod_small.
    pose proof (Z.mod_pos_bound l 64 ltac:(lia)).
    pose proof (Z.div_mod l 64 ltac:(lia)).
    assert (l / 64 < 2 ^ 58) by (apply Z.div_lt_upper_bound; lia).
    lia. }
  split; [reflexivity|]. split; [reflexivity|]. split.
  - intros j Hj. rewrite app_nth2 by lia. rewrite Hf.
    replace (index + j - index)%nat with j by lia.
    apply app_nth1. assumption.
  - intros i [Hlt|Hge].
    + rewrite app_nth1 by lia. rewrite nth_firstn.
      destruct (Nat.ltb_spec i index); [reflexivity | lia].
    + rewrite app_nth2 by lia. rewrite app_nth2 by lia. rewrite Hf.
      rewrite nth_skipn. f_equal. lia.
Qed.

Lemma partial_fill_frame_witness :
  buffer_ok used_ctx /\ 0 <= length used_ctx < 2 ^ 64 /\
  0 < Z.land (u32 (length used_ctx)) 63 /\
  Z.of_nat (List.length abc) < 64 - Z.land (u32 (length used_ctx)) 63 /\
  hash (final_ctx (Hash_Update (Z.of_nat (List.length abc)) abc used_ctx)) = hash used_ctx /\
  compressed (Hash_Update (Z.of_nat (List.length abc)) abc used_ctx) = [] /\
  length (final_ctx (Hash_Update (Z.of_nat (List.length abc)) abc used_ctx)) =
    length used_ctx + Z.of_nat (List.length abc).
Proof.
  assert (H1 : buffer_ok used_ctx) by reflexivity.
  assert (H2 : 0 <= length used_ctx < 2 ^ 64) by (cbn; lia).
  assert (H3 : 0 < Z.land (u32 (length used_ctx)) 63) by reflexivity.
  assert (H4 : Z.of_nat (List.length abc) < 64 - Z.land (u32 (length used_ctx)) 63)
    by reflexivity.
  destruct (partial_fill_frame used_ctx abc H1 H2 H3 H4) as (_ & Ph & Pc & Pl & _).
  exact (conj H1 (conj H2 (conj H3 (conj H4 (conj Ph (conj Pc Pl)))))).
Defined.

(** Claim C7 (context invariant).  After [Hash_Init] and any sequence of
    [Hash_Update] calls that fed the bytes [M] in total: the total length
    modulo 64 is the number of valid bytes in the buffer, the buffer starts
    with those bytes (the bytes of [M] after its last complete block), the
    state is the chaining value of the complete 64-byte blocks of [M], and
    the blocks compressed so far are exactly these blocks, in order, so the
    buffered tail has not been compressed.  Every [Hash_Update] preserves the
    invariant, from any context that satisfies it. *)
Theorem context_invariant (bits : Z) (c0 : sha256_ctx) (chunks : list (list byte))
    (M : list byte) (c : sha256_ctx) (data : list byte) :
  ctx_ok c0 -> sizes_ok chunks ->
  ctx_inv M c -> Z.of_nat (List.length data) < 2 ^ 32 ->
  (ctx_inv (List.concat chunks) (final_ctx ((Hash_Init bits;; Hash_Updates chunks) c0)) /\
   pending (final_ctx ((Hash_Init bits;; Hash_Updates chunks) c0)) =
     tail (List.concat chunks) /\
   compressed ((Hash_Init bits;; Hash_Updates chunks) c0) = blocks (List.concat chunks)) /\
  (ctx_inv (M ++ data) (final_ctx (Hash_Update (Z.of_nat (List.length data)) data c)) /\
   pending (final_ctx (Hash_Update (Z.of_nat (List.length data)) data c)) =
     tail (M ++ data) /\
   blocks (M ++ data) =
     blocks M ++ compressed (Hash_Update (Z.of_nat (List.length data)) data c)).
Proof.
  intros H0 _ I _. split.
  - destruct (init_updates_inv bits chunks c0 H0) as (I0 & B0).
    split; [exact I0|]. split; [apply (ctx_inv_pending _ _ I0) | exact B0].
  - destruct (ctx_inv_update M c data I) as (I1 & _ & _ & B1).
    split; [exact I1|]. split; [apply (ctx_inv_pending _ _ I1) | exact B1].
Qed.

Lemma context_invariant_witness :
  ctx_ok stale_ctx /\ sizes_ok [abc; []; abc] /\
  ctx_inv abc (final_ctx ((Hash_Init 256;; Hash_Update 3 abc) zero_ctx)) /\
  Z.of_nat (List.length (repeat Byte.x01 100)) < 2 ^ 32 /\
  ctx_inv (List.concat [abc; []; abc])
    (final_ctx ((Hash_Init 224;; Hash_Updates [abc; []; abc]) stale_ctx)) /\
  ctx_inv (abc ++ repeat Byte.x01 100)
    (final_ctx
       (Hash_Update (Z.of_nat (List.length (repeat Byte.x01 100))) (repeat Byte.x01 100)
          (final_ctx ((Hash_Init 256;; Hash_Update 3 abc) zero_ctx)))).
Proof.
  assert (H1 : ctx_ok stale_ctx) by (split; reflexivity).
  assert (H2 : sizes_ok [abc; []; abc]) by (repeat constructor).
  assert (H3 : ctx_inv abc (final_ctx ((Hash_Init 256;; Hash_Update 3 abc) zero_ctx))).
  { unfold ctx_inv, buffer_ok. repeat (split; [vm_compute; reflexivity|]).
    vm_compute; reflexivity. }
  assert (H4 : Z.of_nat (List.length (repeat Byte.x01 100)) < 2 ^ 32) by reflexivity.
  destruct (context_invariant 224 stale_ctx [abc; []; abc] abc _ (repeat Byte.x01 100)
              H1 H2 H3 H4) as ((I0 & _) & (I1 & _)).
  exact (conj H1 (conj H2 (conj H3 (conj H4 (conj I0 I1))))).
Defined.

Lemma bswap_32_involutive x : bswap_32 (bswap_32 x) = u32 x.
Proof.
  unfold bswap_32 at 1. rewrite le_split_bswap_32, rev_involutive.
  rewrite le_combine_split. reflexivity.
Qed.

(** Words 14 and 15 of a block that ends with a 64-bit big-endian value. *)
Lemma length_field P v :
  List.length P = 56%nat -> 0 <= v < 2 ^ 64 ->
  Z.shiftl (be32 (load32 (P ++ be64 v) 14)) 32 + be32 (load32 (P ++ be64 v) 15) = v.
Proof.
  intros HP Hv. unfold be64, be32. change 8%nat with (4 + 4)%nat.
  rewrite le_split_add, rev_app_distr.
  rewrite (load32_app P _ _ 14) by (rewrite ?length_rev, ?length_le_split; assumption || reflexivity).
  rewrite <- (app_nil_r (rev (le_split 4 v))), (app_assoc P).
  rewrite (load32_app _ _ [] 15).
  2:{ rewrite length_app, length_rev, length_le_split, HP. reflexivity. }
  2:{ rewrite length_rev, length_le_split. reflexivity. }
  change (le_combine (rev (le_split 4 ?x))) with (bswap_32 x).
  rewrite !bswap_32_involutive. unfold u32.
  change (8 * Z.of_nat 4) with 32.
  rewrite Z.shiftr_div_pow2, Z.shiftl_mul_pow2 by lia.
  rewrite (Z.mod_small (v / 2 ^ 32)).
  - pose proof (Z.div_mod v (2 ^ 32) ltac:(lia)). lia.
  - split; [apply Z.div_pos; lia | apply Z.div_lt_upper_bound; lia].
Qed.

Lemma pending_length c :
  buffer_ok c -> List.length (pending c) = Z.to_nat (length c mod 64).
Proof.
  unfold buffer_ok, pending. intros H. rewrite length_firstn, H.
  pose proof (Z.mod_pos_bound (length c) 64 ltac:(lia)). lia.
Qed.

Lemma final_blocks_last c :
  buffer_ok c ->
  exists P, List.length P = 56%nat /\
            last (final_blocks c) [] = P ++ be64 (u64 (length c * 8)).
Proof.
  intros Hc. pose proof (pending_length c Hc) as HP. unfold final_blocks.
  destruct (Nat.ltb_spec (Z.to_nat (length c mod 64)) 56) as [H|H]; cbn [last].
  - exists (pending c ++ [Byte.x80] ++ repeat Byte.x00 (55 - Z.to_nat (length c mod 64))).
    split.
    + rewrite !length_app, HP, repeat_length. cbn [List.length]. lia.
    + rewrite <- ?app_assoc. reflexivity.
  - exists (repeat Byte.x00 56). split; [apply repeat_length | reflexivity].
Qed.

(** Claim C6 (padding and length of the finalizer).  For every context
    reached by [Hash_Init] and [Hash_Update] calls, with [n = length mod 64]
    bytes in the buffer: the word index after the padding byte exceeds 14
    exactly when [n >= 56]; [Hash_Final] then compresses two blocks, the
    first being the valid bytes, the byte 0x80 and zeros to the end of the
    block, and otherwise it compresses one block; in both cases the blocks
    are those of the padding as specified ([final_blocks]), the state ends as
    the byte-swapped result of compressing them in order, and words 14 and 15
    of the last block compressed, read big-endian, are the high and low
    halves of [length * 8] as a 64-bit integer (the exact bit count whenever
    it fits 64 bits). *)
Theorem finalizer_padding (bits : Z) (c0 : sha256_ctx) (chunks : list (list byte)) :
  ctx_ok c0 -> sizes_ok chunks ->
  let c := final_ctx ((Hash_Init bits;; Hash_Updates chunks) c0) in
  let n := length c mod 64 in
  let index := Z.shiftr (Z.land (u32 (length c)) 63) 2 + 1 in
  let r := Hash_Final c in
  (14 < index <-> 56 <= n) /\
  compressed r = final_blocks c /\
  (14 < index ->
   compressed r =
     [pending c ++ [Byte.x80] ++ repeat Byte.x00 (63 - Z.to_nat n);
      repeat Byte.x00 56 ++ be64 (u64 (length c * 8))]) /\
  (index <= 14 ->
   compressed r =
     [pending c ++ [Byte.x80] ++ repeat Byte.x00 (55 - Z.to_nat n)
        ++ be64 (u64 (length c * 8))]) /\
  hash (final_ctx r) = map bswap_32 (fold_left sha256_process_block (compressed r) (hash c)) /\
  Z.shiftl (be32 (load32 (last (compressed r) []) 14)) 32
    + be32 (load32 (last (compressed r) []) 15) = u64 (length c * 8) /\
  (length c * 8 < 2 ^ 64 -> u64 (length c * 8) = length c * 8).
Proof.
  intros H0 _ c n index r.
  destruct (init_updates_inv bits chunks c0 H0) as (I & _). fold c in I.
  destruct I as (Hl & _ & _ & _ & Hd & Hb).
  assert (Er : compressed r = final_blocks c /\
               hash (final_ctx r) =
               map bswap_32 (fold_left sha256_process_block (final_blocks c) (hash c))).
  { unfold r. rewrite Hash_Final_run by (assumption || lia). split; reflexivity. }
  destruct Er as [Ec Eh].
  pose proof (Z.mod_pos_bound (length c) 64 ltac:(lia)) as Hn. fold n in Hn.
  assert (Hidx : index = n / 4 + 1).
  { unfold index, n. rewrite index_mod, Z.shiftr_div_pow2 by lia. reflexivity. }
  assert (Hiff : 14 < index <-> 56 <= n).
  { rewrite Hidx. pose proof (Z.div_mod n 4 ltac:(lia)).
    pose proof (Z.mod_pos_bound n 4 ltac:(lia)). lia. }
  assert (Hlen : 0 <= length c).
  { rewrite Hl. apply Z.mod_pos_bound. lia. }
  split; [exact Hiff|]. split; [exact Ec|]. split; [|split; [|split; [|split]]].
  - intros Hi. rewrite Ec. unfold final_blocks. fold n.
    destruct (Nat.ltb_spec (Z.to_nat n) 56); [lia | reflexivity].
  - intros Hi. rewrite Ec. unfold final_blocks. fold n.
    destruct (Nat.ltb_spec (Z.to_nat n) 56); [|lia].
    rewrite <- ?app_assoc. reflexivity.
  - rewrite Eh, Ec. reflexivity.
  - rewrite Ec. destruct (final_blocks_last c Hb) as (P & HP & EP).
    rewrite EP. apply length_field; [exact HP|]. apply Z.mod_pos_bound. lia.
  - intros Hs. unfold u64. apply Z.mod_small. lia.
Qed.

Lemma finalizer_padding_witness :
  ctx_ok stale_ctx /\ sizes_ok [abc; repeat Byte.x01 57] /\
  compressed
    (Hash_Final (final_ctx ((Hash_Init 256;; Hash_Updates [abc; repeat Byte.x01 57]) stale_ctx))) =
  final_blocks (final_ctx ((Hash_Init 256;; Hash_Updates [abc; repeat Byte.x01 57]) stale_ctx)).
Proof.
  assert (H1 : ctx_ok stale_ctx) by (split; reflexivity).
  assert (H2 : sizes_ok [abc; repeat Byte.x01 57]) by (repeat constructor).
  destruct (finalizer_padding 256 stale_ctx [abc; repeat Byte.x01 57] H1 H2) as (_ & E & _).
  exact (conj H1 (conj H2 E)).
Defined.

(** Claim C4 (compression engine).  For every state of eight 32-bit words
    and every block of 64 bytes, [sha256_process_block] returns what the
    compression function of FIPS 180-4 section 6.2.2, as the specification
    words it, returns: the block read as sixteen big-endian words, the
    64-entry schedule, 64 rounds with [T1 = H + Sigma1(E) + Ch(E,F,G) + K[t]
    + W[t]], [D + T1] and [T1 + Sigma0(A) + Maj(A,B,C)] followed by the
    cyclic shift, and the final addition of the working variables to the
    state modulo 2^32.  The macro forms of Ch and Maj are equal to the
    xor-based definitions, [ROTR32] to the rotation, and the table
    [rhash_k256] to the first 32 bits of the fractional parts of the cube
    roots of the first 64 primes. *)
Theorem compression_engine (state : list Z) (block : list byte) :
  List.length state = 8%nat -> Forall is_u32 state -> List.length block = 64%nat ->
  sha256_process_block state block = FIPS.compress state block /\
  (forall x y z, is_u32 z -> zkwasm_sha256_ch x y z = FIPS.Ch x y z) /\
  (forall x y z, zkwasm_sha256_maj x y z = FIPS.Maj x y z) /\
  (forall x n, is_u32 x -> 0 < n < 32 -> ROTR32 x n = FIPS.ROTR x n) /\
  rhash_k256 = FIPS.K.
Proof.
  intros L R LB. split; [apply process_block_compress; assumption|].
  split; [exact ch_Ch|]. split; [exact maj_Maj|].
  split; [exact ROTR32_ROTR | exact rhash_k256_K].
Qed.

Lemma compression_engine_witness :
  List.length SHA256_H0 = 8%nat /\ Forall is_u32 SHA256_H0 /\
  List.length abc_block = 64%nat /\
  sha256_process_block SHA256_H0 abc_block = FIPS.compress SHA256_H0 abc_block.
Proof.
  assert (H1 : List.length SHA256_H0 = 8%nat) by reflexivity.
  assert (H2 : Forall is_u32 SHA256_H0) by (repeat constructor; discriminate).
  assert (H3 : List.length abc_block = 64%nat) by reflexivity.
  destruct (compression_engine SHA256_H0 abc_block H1 H2 H3) as (E & _).
  exact (conj H1 (conj H2 (conj H3 E))).
Defined.

(** Claim C5 (schedule representation).  For every block of 64 bytes, the
    64 round inputs that the sixteen-entry circular buffer of the code
    produces (sixteen byte-swapped loads, then [RECALCULATE_W] with indices
    modulo 16) are exactly the entries [W[0..63]] of the full schedule
    [W[t] = sigma1(W[t-2]) + W[t-7] + sigma0(W[t-15]) + W[t-16]], and
    [sha256_process_block] is the 64 rounds fed with them. *)
Theorem schedule_equivalence (hash : list Z) (block : list byte) :
  List.length block = 64%nat ->
  round_inputs block = FIPS.schedule block /\
  List.length (round_inputs block) = 64%nat /\
  sha256_process_block hash block = rounds_with (round_inputs block) hash /\
  sha256_process_block hash block = rounds_with (FIPS.schedule block) hash.
Proof.
  intros LB.
  pose proof (round_inputs_schedule block LB) as E.
  split; [exact E|]. split; [rewrite E; apply schedule_length; exact LB|].
  split; [apply process_block_rounds_with|].
  rewrite <- E. apply process_block_rounds_with.
Qed.

Lemma schedule_equivalence_witness :
  List.length abc_block = 64%nat /\
  round_inputs abc_block = FIPS.schedule abc_block.
Proof.
  assert (H1 : List.length abc_block = 64%nat) by reflexivity.
  destruct (schedule_equivalence SHA256_H0 abc_block H1) as (E & _).
  exact (conj H1 E).
Defined.

(** The digests at the lengths around the padding threshold, for messages of
    the byte 0x61, fed in one chunk and byte by byte. *)
Lemma boundary_vectors :
  map (fun n => to_hex (result (SHA256_Digest (Z.of_nat n) (repeat Byte.x61 n) stale_ctx)))
    [55; 56; 64; 119; 120]%nat =
  [ "9f4390f8d30c2dd92ec9f095b65e2b9ae9b0a925a5258e241c9f1e910f734318";
    "b35439a4ac6f0948b6d6f9e3c6af0f5f590ce20f1bde7090ef7970686ec6738a";
    "ffe054fe7ae0cb6dc65c3af9b61d5209f439851db43d0ba5997337df154668eb";
    "31eba51c313a5c08226adf18d4a359cfdfd8d2e816b13f4af952f7ea6584dcfb";
    "2f3d335432c70b580af0e8e1b3674a7c020d683aa5f73aaaedfdc55af904c21c" ]%string /\
  map
    (fun n =>
       to_hex
         (result
            ((Hash_Init 256;; Hash_Updates (repeat [Byte.x61] n);; Hash_Final) stale_ctx)))
    [55; 56; 64; 119; 120]%nat =
  map (fun n => to_hex (result (SHA256_Digest (Z.of_nat n) (repeat Byte.x61 n) stale_ctx)))
    [55; 56; 64; 119; 120]%nat.
Proof. split; vm_compute; reflexivity. Qed.

(** * Further properties of the code *)

(** ** The digest against the standard *)

Lemma process_block_u32 h b : Forall is_u32 (sha256_process_block h b).
Proof.
  rewrite process_block_rounds_with. unfold rounds_with.
  destruct (fold_left round_fn _ _) as [[[[[[[A B] C] D] E] F] G] H].
  repeat constructor; apply add32_range.
Qed.

(** Over blocks of 64 bytes, from eight 32-bit words, the code and the
    compression function of the standard give the same chaining values. *)
Lemma fold_process_block_compress Bs : forall h,
  List.length h = 8%nat -> Forall is_u32 h ->
  Forall (fun B => List.length B = 64%nat) Bs ->
  fold_left sha256_process_block Bs h = fold_left FIPS.compress Bs h /\
  List.length (fold_left sha256_process_block Bs h) = 8%nat.
Proof.
  induction Bs as [|B Bs IH]; intros h L R F.
  - split; [reflexivity | exact L].
  - inversion F as [|? ? LB F']; subst.
    rewrite !fold_left_cons.
    rewrite <- (process_block_compress h B L R LB).
    apply IH; [apply process_block_length | apply process_block_u32 | exact F'].
Qed.

Lemma SHA256_H0_u32 : List.length SHA256_H0 = 8%nat /\ Forall is_u32 SHA256_H0.
Proof.
  split; [reflexivity|]. repeat constructor; discriminate.
Qed.

Lemma be64_length v : List.length (be64 v) = 8%nat.
Proof. unfold be64. rewrite length_rev. apply length_le_split. Qed.

Lemma be64_u64 v : be64 (u64 v) = be64 v.
Proof.
  unfold be64, u64. f_equal.
  symmetry. apply (le_split_mod v 8).
Qed.

Lemma blocks_one B : List.length B = 64%nat -> blocks B = [B].
Proof.
  intros L. rewrite <- (app_nil_r B) at 1.
  rewrite (proj1 (blocks_cons B [] L)). reflexivity.
Qed.

Lemma blocks_two B1 B2 :
  List.length B1 = 64%nat -> List.length B2 = 64%nat -> blocks (B1 ++ B2) = [B1; B2].
Proof.
  intros L1 L2. rewrite (proj1 (blocks_cons B1 B2 L1)), (blocks_one B2 L2). reflexivity.
Qed.

(** The blocks that [Hash_Final] compresses are the blocks that the padding
    of the standard adds to the buffered tail of the message. *)
Lemma padding_final_blocks M c :
  ctx_inv M c -> Z.of_nat (List.length M) < 2 ^ 61 ->
  blocks (tail M ++ Standard.padding (List.length M)) = final_blocks c.
Proof.
  intros I HM.
  pose proof (ctx_inv_pending M c I) as HP.
  destruct I as (IL & In & _).
  pose proof (tail_length_Z M) as HT.
  destruct (blocks_spec M) as (_ & Ht & _).
  unfold final_blocks, Standard.padding. rewrite HP, In, Nat2Z.id.
  assert (EL : u64 (length c * 8) = 8 * Z.of_nat (List.length M)).
  { rewrite IL. unfold u64. rewrite (Z.mod_small (Z.of_nat _)) by lia.
    rewrite Z.mod_small by lia. lia. }
  rewrite EL.
  set (v := 8 * Z.of_nat (List.length M)).
  set (n := List.length (tail M)) in *.
  destruct (Nat.ltb_spec n 56) as [Hn|Hn].
  - replace (Z.to_nat ((55 - Z.of_nat (List.length M)) mod 64)) with (55 - n)%nat
      by (apply Nat2Z.inj; rewrite Z2Nat.id by (apply Z.mod_pos_bound; lia);
          Z.div_mod_to_equations; lia).
    rewrite !app_assoc. apply blocks_one.
    rewrite !length_app, repeat_length, be64_length. fold n. cbn [List.length]. lia.
  - replace (Z.to_nat ((55 - Z.of_nat (List.length M)) mod 64)) with ((63 - n) + 56)%nat
      by (apply Nat2Z.inj; rewrite Z2Nat.id by (apply Z.mod_pos_bound; lia);
          Z.div_mod_to_equations; lia).
    rewrite repeat_app.
    transitivity
      (blocks ((tail M ++ [Byte.x80] ++ repeat Byte.x00 (63 - n))
                 ++ (repeat Byte.x00 56 ++ be64 v))).
    + f_equal. rewrite <- !app_assoc. reflexivity.
    + apply blocks_two.
      * rewrite !length_app, repeat_length. fold n. cbn [List.length]. lia.
      * rewrite length_app, repeat_length, be64_length. reflexivity.
Qed.

Lemma pad_blocks M c :
  ctx_inv M c -> Z.of_nat (List.length M) < 2 ^ 61 ->
  blocks (Standard.pad M) = blocks M ++ final_blocks c.
Proof.
  intros I HM. unfold Standard.pad.
  rewrite (proj1 (blocks_app M _)), (padding_final_blocks M c I HM). reflexivity.
Qed.

Lemma hash_bytes_bswap h : hash_bytes (map bswap_32 h) = flat_map be_bytes h.
Proof.
  unfold hash_bytes, be_bytes.
  induction h as [|x h IH]; [reflexivity|].
  cbn [map flat_map]. rewrite IH, le_split_bswap_32. reflexivity.
Qed.

Lemma be_bytes_length h : List.length (flat_map be_bytes h) = (4 * List.length h)%nat.
Proof.
  induction h as [|x h IH]; [reflexivity|].
  cbn [flat_map]. rewrite length_app, IH. unfold be_bytes.
  rewrite length_rev, length_le_split. cbn [List.length]. lia.
Qed.

(** The run of [Hash_Init], the updates and [Hash_Final] in terms of the
    padded message. *)
Lemma streaming_run bits chunks c :
  ctx_ok c -> Z.of_nat (List.length (List.concat chunks)) < 2 ^ 61 ->
  result ((Hash_Init bits;; Hash_Updates chunks;; Hash_Final) c) =
    Standard.sha256 (List.concat chunks) /\
  compressed ((Hash_Init bits;; Hash_Updates chunks;; Hash_Final) c) =
    blocks (Standard.pad (List.concat chunks)).
Proof.
  intros Hc HM.
  destruct (init_updates_final bits chunks c Hc) as (c1 & I & E).
  rewrite E. unfold result at 1, compressed at 1. cbn [fst snd].
  pose proof (pad_blocks _ c1 I HM) as PB.
  pose proof I as (_ & _ & _ & Hh & Hd & Hb).
  rewrite (Hash_Final_run c1 Hb) by (rewrite Hd; lia).
  unfold result, compressed. cbn [fst snd].
  split; [|symmetry; exact PB].
  rewrite Hh. unfold chaining_value. rewrite <- fold_left_app, <- PB.
  destruct SHA256_H0_u32 as (L0 & R0).
  destruct (blocks_spec (Standard.pad (List.concat chunks))) as (F & _).
  destruct (fold_process_block_compress _ SHA256_H0 L0 R0 F) as (EC & LC).
  rewrite hash_bytes_bswap, Hd.
  rewrite firstn_all2 by (rewrite be_bytes_length, LC; cbn; lia).
  unfold Standard.sha256. rewrite <- SHA256_H0_standard, EC. reflexivity.
Qed.

Lemma pad_length M :
  Z.of_nat (List.length (Standard.pad M)) =
  64 * ((Z.of_nat (List.length M) + 8) / 64 + 1).
Proof.
  unfold Standard.pad, Standard.padding.
  rewrite !length_app, repeat_length, be64_length. cbn [List.length].
  rewrite !Nat2Z.inj_add, Z2Nat.id by (apply Z.mod_pos_bound; lia).
  change (Z.of_nat 1) with 1. change (Z.of_nat 8) with 8.
  Z.div_mod_to_equations. lia.
Qed.

Lemma blocks_aux_length n : forall M, List.length (blocks_aux n M) = n.
Proof.
  induction n as [|n IH]; intros M; [reflexivity|].
  cbn [blocks_aux List.length]. rewrite IH. reflexivity.
Qed.

Lemma blocks_length M : List.length (blocks M) = (List.length M / 64)%nat.
Proof. unfold blocks. apply blocks_aux_length. Qed.

Lemma blocks_length_Z M :
  Z.of_nat (List.length (blocks M)) = Z.of_nat (List.length M) / 64.
Proof. rewrite blocks_length, Nat2Z.inj_div. reflexivity. Qed.

Lemma pad_concat M : List.concat (blocks (Standard.pad M)) = Standard.pad M.
Proof.
  destruct (blocks_spec (Standard.pad M)) as (_ & _ & E).
  pose proof (tail_length_Z (Standard.pad M)) as HT.
  rewrite pad_length in HT.
  replace (64 * ((Z.of_nat (List.length M) + 8) / 64 + 1)) with
    (((Z.of_nat (List.length M) + 8) / 64 + 1) * 64) in HT by lia.
  rewrite Z.mod_mul in HT by lia.
  destruct (tail (Standard.pad M)) as [|x t]; [|discriminate HT].
  rewrite app_nil_r in E. exact E.
Qed.

(** The function of the standard on the message "abc" of its appendix. *)
Lemma standard_abc :
  to_hex (Standard.sha256 abc) =
  "ba7816bf8f01cfea414140de5dae2223b00361a396177a9cb410ff61f20015ad"%string.
Proof. vm_compute. reflexivity. Qed.

(** Property X1 (the digest of the standard).  [Hash_Init], [Hash_Update]
    of the chunks of a message and [Hash_Final] return the SHA-256 digest of
    the message as FIPS 180 defines it: the message padded with the byte
    0x80, zero bytes and its length in bits as a 64-bit big-endian integer,
    cut into 64-byte blocks, compressed from the initial hash value, the
    eight words of the result written most significant byte first.  The
    digest has 32 bytes, and [SHA256_Digest] returns the same digest when
    the message fits its [uint32_t] size. *)
Theorem digest_is_standard (bits : Z) (chunks : list (list byte)) (c : sha256_ctx) :
  ctx_ok c -> sizes_ok chunks ->
  Z.of_nat (List.length (List.concat chunks)) < 2 ^ 61 ->
  result ((Hash_Init bits;; Hash_Updates chunks;; Hash_Final) c) =
    Standard.sha256 (List.concat chunks) /\
  List.length (result ((Hash_Init bits;; Hash_Updates chunks;; Hash_Final) c)) = 32%nat /\
  (Z.of_nat (List.length (List.concat chunks)) < 2 ^ 32 ->
   result
     (SHA256_Digest (Z.of_nat (List.length (List.concat chunks))) (List.concat chunks) c) =
     Standard.sha256 (List.concat chunks)).
Proof.
  intros Hc _ HM.
  destruct (streaming_run bits chunks c Hc HM) as (E & _).
  split; [exact E|]. split.
  - rewrite E. unfold Standard.sha256. rewrite be_bytes_length.
    destruct SHA256_H0_u32 as (L0 & R0).
    destruct (blocks_spec (Standard.pad (List.concat chunks))) as (F & _).
    destruct (fold_process_block_compress _ SHA256_H0 L0 R0 F) as (EC & LC).
    rewrite <- SHA256_H0_standard, <- EC, LC. reflexivity.
  - intros _. rewrite SHA256_Digest_chunks.
    pose proof (streaming_run 256 [List.concat chunks] c Hc) as S.
    cbn [List.concat] in S. rewrite app_nil_r in S.
    exact (proj1 (S HM)).
Qed.

Lemma digest_is_standard_witness :
  result
    ((Hash_Init 256;; Hash_Updates [abc; []; abc];; Hash_Final) stale_ctx) =
  Standard.sha256 (List.concat [abc; []; abc]).
Proof.
  refine (proj1 (digest_is_standard 256 [abc; []; abc] stale_ctx _ _ _)).
  - split; reflexivity.
  - repeat constructor.
  - reflexivity.
Defined.

(** Property X2 (the blocks compressed).  The blocks that [SHA256_Digest] passes to the compression function
    are the 64-byte blocks of the padded message, in order: together they
    are the message, the byte 0x80, [(55 - n) mod 64] zero bytes and the
    64-bit big-endian bit length, and there are [(n + 8) / 64 + 1] of them
    for a message of [n] bytes. *)
Theorem digest_compressions (msg : list byte) (c : sha256_ctx) :
  ctx_ok c -> Z.of_nat (List.length msg) < 2 ^ 32 ->
  let r := SHA256_Digest (Z.of_nat (List.length msg)) msg c in
  List.concat (compressed r) =
    msg ++ [Byte.x80]
      ++ repeat Byte.x00 (Z.to_nat ((55 - Z.of_nat (List.length msg)) mod 64))
      ++ be64 (8 * Z.of_nat (List.length msg)) /\
  Forall (fun B => List.length B = 64%nat) (compressed r) /\
  Z.of_nat (List.length (compressed r)) = (Z.of_nat (List.length msg) + 8) / 64 + 1.
Proof.
  intros Hc HM r. subst r.
  rewrite SHA256_Digest_chunks.
  pose proof (streaming_run 256 [msg] c Hc) as S.
  cbn [List.concat] in S. rewrite app_nil_r in S.
  destruct (S ltac:(lia)) as (_ & E). rewrite E.
  split; [apply pad_concat|]. split.
  - apply blocks_spec.
  - rewrite blocks_length_Z, pad_length.
    rewrite Z.mul_comm, Z.div_mul by lia. reflexivity.
Qed.

Lemma digest_compressions_witness :
  Z.of_nat (List.length (compressed (SHA256_Digest 56 (repeat Byte.x61 56) zero_ctx))) = 2.
Proof.
  refine (proj2 (proj2 (digest_compressions (repeat Byte.x61 56) zero_ctx _ _))).
  - split; reflexivity.
  - reflexivity.
Defined.

(** ** [Hash_Update] from any context *)

(** What one [Hash_Update] does to a context whose buffer holds the bytes
    [pending c]. *)
Lemma Hash_Update_state c data :
  buffer_ok c ->
  let r := Hash_Update (Z.of_nat (List.length data)) data c in
  compressed r = blocks (pending c ++ data) /\
  hash (final_ctx r) =
    fold_left sha256_process_block (blocks (pending c ++ data)) (hash c) /\
  pending (final_ctx r) = tail (pending c ++ data) /\
  length (final_ctx r) = u64 (length c + Z.of_nat (List.length data)) /\
  digest_length (final_ctx r) = digest_length c /\
  buffer_ok (final_ctx r).
Proof.
  intros Hb r. subst r.
  destruct (Hash_Update_run c data Hb) as (m' & E & Lm & Fm).
  rewrite E. unfold compressed, final_ctx, buffer_ok.
  cbn [fst snd message length hash digest_length].
  split; [reflexivity|]. split; [reflexivity|].
  split; [|split; [reflexivity|split; [reflexivity|exact Lm]]].
  unfold pending at 1. cbn [message length].
  rewrite <- Fm. f_equal.
  rewrite u64_mod_64.
  pose proof (tail_length_Z (pending c ++ data)) as HT.
  rewrite length_app, (pending_length c Hb), Nat2Z.inj_add in HT.
  pose proof (Z.mod_pos_bound (length c) 64 ltac:(lia)) as Hl.
  rewrite Z2Nat.id in HT by lia.
  rewrite Z.add_mod_idemp_l in HT by lia.
  rewrite <- HT, Nat2Z.id. reflexivity.
Qed.

(** Property X3 (empty update).  [Hash_Update] with size 0 leaves the
    context as it is, buffer included, whatever [data] points to, and
    compresses nothing. *)
Theorem Hash_Update_empty (data : list byte) (c : sha256_ctx) :
  0 <= length c < 2 ^ 64 ->
  Hash_Update 0 data c = (tt, c, []).
Proof.
  intros Hl. destruct c as [m l h d]. cbn [length] in Hl.
  unfold Hash_Update. run.
  rewrite index_mod. unfold sha256_block_size.
  replace (u64 (l + 0)) with l by (unfold u64; rewrite Z.add_0_r, Z.mod_small; lia).
  pose proof (Z.mod_pos_bound l 64 ltac:(lia)) as Hb.
  destruct (Z.eqb_spec (l mod 64) 0) as [E|E].
  - run. reflexivity.
  - destruct (Z.ltb_spec 0 (64 - l mod 64)) as [_|F]; [|lia].
    run. reflexivity.
Qed.

Lemma Hash_Update_empty_witness :
  Hash_Update 0 abc used_ctx = (tt, used_ctx, []).
Proof.
  apply (Hash_Update_empty abc used_ctx). cbn. lia.
Defined.

(** Property X4 (one update, from any context).  From any content of the
    context with [n = length mod 64] bytes in the buffer, [Hash_Update]
    compresses exactly the complete 64-byte blocks of the buffered bytes
    followed by the chunk, in order, [(n + size) / 64] of them; the state is
    the result of compressing them from the state before, the buffer holds
    the bytes after the last complete block, the length has grown by the
    size modulo 2^64 and the digest length is unchanged. *)
Theorem Hash_Update_blocks (c : sha256_ctx) (data : list byte) :
  buffer_ok c -> Z.of_nat (List.length data) < 2 ^ 32 ->
  let r := Hash_Update (Z.of_nat (List.length data)) data c in
  compressed r = blocks (pending c ++ data) /\
  Z.of_nat (List.length (compressed r)) =
    (length c mod 64 + Z.of_nat (List.length data)) / 64 /\
  hash (final_ctx r) =
    fold_left sha256_process_block (blocks (pending c ++ data)) (hash c) /\
  pending (final_ctx r) = tail (pending c ++ data) /\
  length (final_ctx r) = u64 (length c + Z.of_nat (List.length data)) /\
  digest_length (final_ctx r) = digest_length c /\
  buffer_ok (final_ctx r).
Proof.
  intros Hb _ r.
  destruct (Hash_Update_state c data Hb) as (E1 & E2).
  split; [exact E1|]. split; [|exact E2].
  fold r in E1. rewrite E1, blocks_length_Z, length_app, (pending_length c Hb).
  rewrite Nat2Z.inj_add, Z2Nat.id; [reflexivity|].
  apply Z.mod_pos_bound. lia.
Qed.

Lemma Hash_Update_blocks_witness :
  Z.of_nat (List.length (compressed (Hash_Update 64 (repeat Byte.x61 64) used_ctx))) = 1.
Proof.
  refine (proj1 (proj2 (Hash_Update_blocks used_ctx (repeat Byte.x61 64) _ _))).
  - reflexivity.
  - reflexivity.
Defined.

(** Property X5 (updates compose).  From any content of the context, two
    calls of [Hash_Update] on [a] and then [b] compress the same blocks and
    leave the same state, length, digest length and buffered bytes as one
    call on [a ++ b]; a [Hash_Final] that follows returns the same digest and
    leaves the same context in both cases.  (The bytes of the buffer after
    the buffered ones can differ.) *)
Theorem Hash_Update_append (c : sha256_ctx) (a b : list byte) :
  buffer_ok c ->
  Z.of_nat (List.length a) + Z.of_nat (List.length b) < 2 ^ 32 ->
  let r2 :=
    (Hash_Update (Z.of_nat (List.length a)) a;;
     Hash_Update (Z.of_nat (List.length b)) b) c in
  let r1 := Hash_Update (Z.of_nat (List.length (a ++ b))) (a ++ b) c in
  compressed r2 = compressed r1 /\
  hash (final_ctx r2) = hash (final_ctx r1) /\
  length (final_ctx r2) = length (final_ctx r1) /\
  digest_length (final_ctx r2) = digest_length (final_ctx r1) /\
  pending (final_ctx r2) = pending (final_ctx r1) /\
  (0 <= digest_length c <= 32 -> Hash_Final (final_ctx r2) = Hash_Final (final_ctx r1)).
Proof.
  intros Hb _ r2 r1.
  destruct (Hash_Update_state c a Hb) as (A1 & A2 & A3 & A4 & A5 & A6).
  set (ra := Hash_Update (Z.of_nat (List.length a)) a c) in *.
  destruct (Hash_Update_state (final_ctx ra) b A6) as (B1 & B2 & B3 & B4 & B5 & B6).
  set (rb := Hash_Update (Z.of_nat (List.length b)) b (final_ctx ra)) in *.
  destruct (Hash_Update_state c (a ++ b) Hb) as (C1 & C2 & C3 & C4 & C5 & C6).
  fold r1 in C1, C2, C3, C4, C5, C6.
  assert (E2 : r2 = (result rb, final_ctx rb, compressed ra ++ compressed rb)).
  { unfold r2.
    rewrite (bind_run _ _ _ _ _ _ (triple_eta ra)).
    fold rb. rewrite (triple_eta rb) at 1. reflexivity. }
  destruct (blocks_app (pending c ++ a) b) as (EB & ET).
  rewrite <- app_assoc in EB, ET.
  assert (Ec : compressed r2 = compressed r1).
  { rewrite E2. unfold compressed at 1. cbn [snd].
    rewrite A1, B1, C1, A3, EB. reflexivity. }
  assert (Eh : hash (final_ctx r2) = hash (final_ctx r1)).
  { rewrite E2. unfold final_ctx at 1. cbn [fst snd].
    rewrite B2, C2, A2, A3, EB, fold_left_app. reflexivity. }
  assert (El : length (final_ctx r2) = length (final_ctx r1)).
  { rewrite E2. unfold final_ctx at 1. cbn [fst snd].
    rewrite B4, C4, A4, length_app, Nat2Z.inj_add. unfold u64.
    rewrite Z.add_mod_idemp_l by lia. f_equal. lia. }
  assert (Ed : digest_length (final_ctx r2) = digest_length (final_ctx r1)).
  { rewrite E2. unfold final_ctx at 1. cbn [fst snd].
    rewrite B5, C5, A5. reflexivity. }
  assert (Ep : pending (final_ctx r2) = pending (final_ctx r1)).
  { rewrite E2. unfold final_ctx at 1. cbn [fst snd].
    rewrite B3, C3, A3, ET. reflexivity. }
  repeat (split; [assumption|]).
  intros Hd. apply Hash_Final_stale; try assumption.
  - rewrite E2. unfold final_ctx at 1. cbn [fst snd]. exact B6.
  - replace (digest_length (final_ctx r2)) with (digest_length c); [exact Hd|].
    rewrite E2. unfold final_ctx at 1. cbn [fst snd]. rewrite B5, A5. reflexivity.
Qed.

Lemma Hash_Update_append_witness :
  hash
    (final_ctx
       ((Hash_Update 60 (repeat Byte.x61 60);; Hash_Update 3 abc) used_ctx)) =
  hash (final_ctx (Hash_Update 63 (repeat Byte.x61 60 ++ abc) used_ctx)).
Proof.
  refine (proj1 (proj2 (Hash_Update_append used_ctx (repeat Byte.x61 60) abc _ _))).
  - reflexivity.
  - reflexivity.
Defined.

(** The whole buffers can differ: one call on an empty buffer compresses
    complete blocks from the input and never copies them, two calls copy
    what the first one left incomplete. *)
Lemma Hash_Update_append_buffers :
  message
    (final_ctx
       ((Hash_Update 10 (repeat Byte.x61 10);; Hash_Update 64 (repeat Byte.x61 64))
          zero_ctx)) <>
  message (final_ctx (Hash_Update 74 (repeat Byte.x61 74) zero_ctx)).
Proof. vm_compute. discriminate. Qed.

(** ** [Hash_Final] *)

(** Property X6 (the output of the finalizer).  From any content of the
    context with a digest length of at most 32, [Hash_Final] returns
    [digest_length] bytes: the first bytes of the eight words that result
    from compressing the padding blocks from the state, each word most
    significant byte first.  These are the bytes that the state holds in
    memory afterwards (the words are byte-swapped in place); the buffer is
    left holding the last block compressed, and the length and the digest
    length are unchanged. *)
Theorem Hash_Final_output (c : sha256_ctx) :
  buffer_ok c -> 0 <= digest_length c <= 32 ->
  let r := Hash_Final c in
  result r =
    firstn (Z.to_nat (digest_length c))
      (flat_map be_bytes (fold_left sha256_process_block (compressed r) (hash c))) /\
  Z.of_nat (List.length (result r)) = digest_length c /\
  result r = firstn (Z.to_nat (digest_length c)) (hash_bytes (hash (final_ctx r))) /\
  message (final_ctx r) = last (compressed r) [] /\
  length (final_ctx r) = length c /\
  digest_length (final_ctx r) = digest_length c.
Proof.
  intros Hb Hd r. subst r. rewrite (Hash_Final_run c Hb Hd).
  unfold result, final_ctx, compressed. cbn [fst snd message length hash digest_length].
  rewrite hash_bytes_bswap.
  split; [reflexivity|].
  split; [|repeat split; reflexivity].
  rewrite length_firstn, be_bytes_length.
  assert (L : List.length (fold_left sha256_process_block (final_blocks c) (hash c)) = 8%nat).
  { unfold final_blocks.
    destruct (Nat.ltb _ 56); cbn [fold_left]; apply process_block_length. }
  rewrite L. lia.
Qed.

Lemma Hash_Final_output_witness :
  Z.of_nat (List.length (result (Hash_Final stale_ctx))) = 28.
Proof.
  refine (proj1 (proj2 (Hash_Final_output stale_ctx _ _))).
  - reflexivity.
  - cbn. lia.
Defined.

(** ** What [Hash_Update] reads *)

Lemma for_u8_ext {T : Type} (body1 body2 : Z -> T -> T) bound :
  (forall j s, 0 <= j < bound -> body1 j s = body2 j s) ->
  forall fuel i s, 0 <= i ->
  for_u8 fuel i bound body1 s = for_u8 fuel i bound body2 s.
Proof.
  intros E. induction fuel as [|fuel IH]; intros i s Hi; [reflexivity|].
  cbn [for_u8].
  destruct (Z.ltb_spec i bound) as [Hlt|_]; [|reflexivity].
  rewrite (E i s) by lia.
  apply IH. unfold u8. apply Z.mod_pos_bound. lia.
Qed.

Lemma byte_at_firstn m1 m2 n j :
  firstn (Z.to_nat n) m1 = firstn (Z.to_nat n) m2 -> 0 <= j < n ->
  byte_at m1 j = byte_at m2 j.
Proof.
  intros E Hj. unfold byte_at.
  assert (F : forall m, nth (Z.to_nat j) m Byte.x00 =
                        nth (Z.to_nat j) (firstn (Z.to_nat n) m) Byte.x00).
  { intros m. rewrite nth_firstn.
    destruct (Nat.ltb_spec (Z.to_nat j) (Z.to_nat n)); [reflexivity|lia]. }
  rewrite (F m1), (F m2), E. reflexivity.
Qed.

Lemma firstn_shorter {A : Type} (l1 l2 : list A) n k :
  (k <= n)%nat -> firstn n l1 = firstn n l2 -> firstn k l1 = firstn k l2.
Proof.
  intros Hk E.
  replace k with (Nat.min k n) by lia.
  rewrite <- !firstn_firstn, E. reflexivity.
Qed.

Lemma firstn_after {A : Type} (l1 l2 : list A) n k :
  firstn n l1 = firstn n l2 -> firstn (n - k) (skipn k l1) = firstn (n - k) (skipn k l2).
Proof.
  intros E. rewrite <- !skipn_firstn_comm, E. reflexivity.
Qed.

(** The loop over whole blocks reads the first [size] bytes of its input. *)
Lemma update_blocks_prefix : forall fuel size m1 m2 c,
  firstn (Z.to_nat size) m1 = firstn (Z.to_nat size) m2 ->
  exists s m1' m2' c' t,
    update_blocks fuel size m1 c = ((s, m1'), c', t) /\
    update_blocks fuel size m2 c = ((s, m2'), c', t) /\
    firstn (Z.to_nat s) m1' = firstn (Z.to_nat s) m2'.
Proof.
  induction fuel as [|fuel IH]; intros size m1 m2 c E.
  - exists size, m1, m2, c, []. repeat split; [exact E].
  - cbn [update_blocks]. unfold sha256_block_size.
    destruct (Z.leb_spec 64 size) as [Hs|Hs].
    + rewrite !bind_process_block.
      change (Z.to_nat 64) with 64%nat.
      assert (E64 : firstn 64 m1 = firstn 64 m2).
      { apply (firstn_shorter m1 m2 (Z.to_nat size)); [lia|exact E]. }
      rewrite <- (process_block_firstn (hash c) m1), <- (process_block_firstn (hash c) m2).
      rewrite E64.
      assert (E' : firstn (Z.to_nat (size - 64)) (skipn 64 m1) =
                   firstn (Z.to_nat (size - 64)) (skipn 64 m2)).
      { replace (Z.to_nat (size - 64)) with (Z.to_nat size - 64)%nat by lia.
        apply firstn_after. exact E. }
      destruct (IH (size - 64) (skipn 64 m1) (skipn 64 m2)
                  (mk_ctx (message c) (length c)
                     (sha256_process_block (hash c) (firstn 64 m2)) (digest_length c)) E')
        as (s & m1' & m2' & c' & t & R1 & R2 & Es).
      exists s, m1', m2', c', (firstn 64 m2 :: t).
      rewrite R1, R2. repeat split; [exact Es].
    + exists size, m1, m2, c, []. repeat split; [exact E].
Qed.

(** Property X7 (the input read).  [Hash_Update] reads the first [size]
    bytes of [data] and nothing after them: on two inputs that agree on
    their first [size] bytes it returns the same context and compresses the
    same blocks. *)
Theorem Hash_Update_reads_size (size : Z) (d1 d2 : list byte) (c : sha256_ctx) :
  0 <= size < 2 ^ 32 ->
  firstn (Z.to_nat size) d1 = firstn (Z.to_nat size) d2 ->
  Hash_Update size d1 c = Hash_Update size d2 c.
Proof.
  intros Hs E. destruct c as [m l h d].
  assert (Tail : forall s m1 m2 c,
            firstn (Z.to_nat s) m1 = firstn (Z.to_nat s) m2 ->
            bind (update_blocks (Z.to_nat s) s m1)
              (fun r =>
                 let '(size, msg) := r in
                 if size =? 0 then ret tt
                 else
                   bind get_ctx (fun c =>
                     set_message
                       (for_u8 256 0 size (fun i m => upd i (byte_at msg i) m)
                          (message c)))) c =
            bind (update_blocks (Z.to_nat s) s m2)
              (fun r =>
                 let '(size, msg) := r in
                 if size =? 0 then ret tt
                 else
                   bind get_ctx (fun c =>
                     set_message
                       (for_u8 256 0 size (fun i m => upd i (byte_at msg i) m)
                          (message c)))) c).
  { intros s m1 m2 c0 E0.
    destruct (update_blocks_prefix (Z.to_nat s) s m1 m2 c0 E0)
      as (s' & m1' & m2' & c' & t & R1 & R2 & Es).
    rewrite (bind_run _ _ _ _ _ _ R1), (bind_run _ _ _ _ _ _ R2).
    destruct (s' =? 0); [reflexivity|].
    rewrite !bind_get_ctx.
    rewrite (for_u8_ext
               (fun i m => upd i (byte_at m1' i) m)
               (fun i m => upd i (byte_at m2' i) m) s'); [reflexivity| |lia].
    intros j s0 Hj. rewrite (byte_at_firstn m1' m2' s' j Es Hj). reflexivity. }
  unfold Hash_Update. run.
  rewrite index_mod. unfold sha256_block_size.
  pose proof (Z.mod_pos_bound l 64 ltac:(lia)) as Hb.
  destruct (Z.eqb_spec (l mod 64) 0) as [E0|E0].
  - run. apply Tail. exact E.
  - destruct (Z.ltb_spec size (64 - l mod 64)) as [Hlt|Hge].
    + run.
      rewrite (for_u8_ext
                 (fun i m => upd (l mod 64 + i) (byte_at d1 i) m)
                 (fun i m => upd (l mod 64 + i) (byte_at d2 i) m) size);
        [reflexivity| |lia].
      intros j s0 Hj. rewrite (byte_at_firstn d1 d2 size j E Hj). reflexivity.
    + run.
      rewrite (for_u8_ext
                 (fun i m => upd (l mod 64 + i) (byte_at d1 i) m)
                 (fun i m => upd (l mod 64 + i) (byte_at d2 i) m) (64 - l mod 64));
        [| |lia].
      2:{ intros j s0 Hj.
          rewrite (byte_at_firstn d1 d2 size j E ltac:(lia)). reflexivity. }
      set (m' := for_u8 256 0 (64 - l mod 64) _ m).
      set (c' := mk_ctx m' (u64 (l + size)) (sha256_process_block h m') d).
      pose proof (Tail (size - (64 - l mod 64))
                    (skipn (Z.to_nat (64 - l mod 64)) d1)
                    (skipn (Z.to_nat (64 - l mod 64)) d2) c') as T.
      rewrite T; [reflexivity|].
      replace (Z.to_nat (size - (64 - l mod 64)))
        with (Z.to_nat size - Z.to_nat (64 - l mod 64))%nat by lia.
      apply firstn_after. exact E.
Qed.

Lemma Hash_Update_reads_size_witness :
  Hash_Update 3 (abc ++ [Byte.xff]) used_ctx = Hash_Update 3 abc used_ctx.
Proof.
  apply (Hash_Update_reads_size 3 (abc ++ [Byte.xff]) abc used_ctx).
  - lia.
  - reflexivity.
Defined.

(** ** The branches of [Hash_Update] *)

(** Property X8 (update on an empty buffer).  When no byte is buffered
    ([length mod 64 = 0]), [Hash_Update] compresses the complete blocks of
    the chunk from the input, without copying them, and writes only the
    [size mod 64] bytes that follow them, at the start of the buffer: the
    rest of the buffer is unchanged, and the whole buffer is when the size
    is a multiple of 64. *)
Theorem Hash_Update_aligned_frame (c : sha256_ctx) (data : list byte) :
  buffer_ok c -> length c mod 64 = 0 -> Z.of_nat (List.length data) < 2 ^ 32 ->
  let r := Hash_Update (Z.of_nat (List.length data)) data c in
  let k := (List.length data mod 64)%nat in
  compressed r = blocks data /\
  hash (final_ctx r) = fold_left sha256_process_block (blocks data) (hash c) /\
  List.length (tail data) = k /\
  message (final_ctx r) = tail data ++ skipn k (message c) /\
  (k = 0%nat -> message (final_ctx r) = message c).
Proof.
  intros Hb Hl _ r k. subst r k. destruct c as [m l h d].
  unfold buffer_ok in Hb. cbn [message length hash] in *.
  rewrite (Hash_Update_aligned data m l h d Hb Hl).
  unfold compressed, final_ctx. cbn [fst snd message hash].
  pose proof (tail_length data) as HT.
  split; [reflexivity|]. split; [reflexivity|]. split; [exact HT|].
  rewrite HT. split; [reflexivity|].
  intros Hk. rewrite Hk in *.
  destruct (tail data) as [|x t]; [reflexivity|discriminate HT].
Qed.

Lemma Hash_Update_aligned_frame_witness :
  message (final_ctx (Hash_Update 64 (repeat Byte.x61 64) zero_ctx)) = message zero_ctx.
Proof.
  refine (proj2 (proj2 (proj2 (proj2
            (Hash_Update_aligned_frame zero_ctx (repeat Byte.x61 64) _ _ _)))) _);
    reflexivity.
Defined.

(** Property X9 (update that completes the buffered block).  When [n =
    length mod 64 > 0] bytes are buffered and the chunk has at least
    [64 - n] bytes, the first block compressed is the buffered bytes
    followed by the first [64 - n] bytes of the chunk; the complete blocks
    of the rest of the chunk follow, and the bytes after them are written at
    the start of the buffer, over the block compressed first. *)
Theorem Hash_Update_fill_frame (c : sha256_ctx) (data : list byte) :
  buffer_ok c -> 0 < length c mod 64 ->
  64 - length c mod 64 <= Z.of_nat (List.length data) < 2 ^ 32 ->
  let left := Z.to_nat (64 - length c mod 64) in
  let r := Hash_Update (Z.of_nat (List.length data)) data c in
  let first := pending c ++ firstn left data in
  let rest := skipn left data in
  List.length first = 64%nat /\
  compressed r = first :: blocks rest /\
  hash (final_ctx r) =
    fold_left sha256_process_block (blocks rest) (sha256_process_block (hash c) first) /\
  message (final_ctx r) = tail rest ++ skipn (List.length (tail rest)) first.
Proof.
  intros Hb Hl Hd left r first rest. subst left r first rest.
  pose proof (pending_length c Hb) as HP.
  destruct c as [m l h d].
  unfold buffer_ok, pending in *. cbn [message length hash] in *.
  rewrite (Hash_Update_fill data m l h d Hb Hl (proj1 Hd)).
  unfold compressed, final_ctx. cbn [fst snd message hash].
  split; [|repeat split; reflexivity].
  rewrite length_app, HP, length_firstn.
  pose proof (Z.mod_pos_bound l 64 ltac:(lia)). lia.
Qed.

Lemma Hash_Update_fill_frame_witness :
  compressed (Hash_Update 59 (repeat Byte.x61 59) used_ctx) =
  [repeat Byte.xff 5 ++ repeat Byte.x61 59].
Proof.
  refine (proj1 (proj2 (Hash_Update_fill_frame used_ctx (repeat Byte.x61 59) _ _ _))).
  - reflexivity.
  - reflexivity.
  - cbn. lia.
Defined.

(** ** The macros *)

(** Property X10 (choice and majority).  At every bit position,
    [zkwasm_sha256_ch(x, y, z)] has the bit of [y] where [x] has a 1 and the
    bit of [z] where [x] has a 0, and [zkwasm_sha256_maj(x, y, z)] has the
    bit that at least two of [x], [y], [z] have; on 32-bit words the first
    is the formula [(x & y) | (~x & z)] that the source gives for it. *)
Theorem ch_maj_bitwise (x y z : Z) :
  is_u32 x -> is_u32 y -> is_u32 z ->
  (forall i,
     Z.testbit (zkwasm_sha256_ch x y z) i =
       (if Z.testbit x i then Z.testbit y i else Z.testbit z i)) /\
  (forall i,
     Z.testbit (zkwasm_sha256_maj x y z) i =
       (Z.testbit x i && Z.testbit y i
        || Z.testbit x i && Z.testbit z i
        || Z.testbit y i && Z.testbit z i)%bool) /\
  zkwasm_sha256_ch x y z = Z.lor (Z.land x y) (Z.land (not32 x) z) /\
  is_u32 (zkwasm_sha256_ch x y z) /\
  is_u32 (zkwasm_sha256_maj x y z).
Proof.
  intros Hx Hy Hz.
  assert (C : forall i,
            Z.testbit (zkwasm_sha256_ch x y z) i =
              (if Z.testbit x i then Z.testbit y i else Z.testbit z i)).
  { intros i. unfold zkwasm_sha256_ch.
    rewrite !Z.lxor_spec, Z.land_spec, Z.lxor_spec.
    destruct (Z.testbit x i), (Z.testbit y i), (Z.testbit z i); reflexivity. }
  assert (J : forall i,
            Z.testbit (zkwasm_sha256_maj x y z) i =
              (Z.testbit x i && Z.testbit y i
               || Z.testbit x i && Z.testbit z i
               || Z.testbit y i && Z.testbit z i)%bool).
  { intros i. unfold zkwasm_sha256_maj.
    rewrite !Z.lxor_spec, !Z.land_spec, Z.lxor_spec.
    destruct (Z.testbit x i), (Z.testbit y i), (Z.testbit z i); reflexivity. }
  assert (R : forall w, 0 <= w ->
            (forall i, 32 <= i -> Z.testbit w i = false) -> is_u32 w).
  { intros w Hw Hi. unfold is_u32. split; [exact Hw|].
    destruct (Z.eq_dec w 0) as [->|Hn]; [lia|].
    apply Z.log2_lt_pow2; [lia|].
    destruct (Z.lt_ge_cases (Z.log2 w) 32) as [|Hge]; [assumption|].
    pose proof (Z.bit_log2 w ltac:(lia)) as Hbit.
    rewrite (Hi _ Hge) in Hbit. discriminate. }
  assert (Hi : forall w, is_u32 w -> forall i, 32 <= i -> Z.testbit w i = false).
  { intros w Hw i Hi. rewrite <- (Z.mod_small w (2 ^ 32)) by exact Hw.
    apply Z.mod_pow2_bits_high. lia. }
  split; [exact C|]. split; [exact J|]. split; [|split].
  - rewrite (ch_Ch x y z Hz). unfold FIPS.Ch, not32, u32.
    unfold is_u32 in Hz. rewrite <- (Z.mod_small z (2 ^ 32)) by assumption.
    bits.
  - apply R.
    + unfold zkwasm_sha256_ch.
      apply Z.lxor_nonneg. split; intros _; [|apply Hz].
      apply Z.land_nonneg. left. apply Hx.
    + intros i Hge. rewrite C, (Hi x Hx i Hge), (Hi z Hz i Hge). reflexivity.
  - apply R.
    + unfold zkwasm_sha256_maj.
      apply Z.lxor_nonneg. split; intros _; apply Z.land_nonneg; left; [apply Hz|apply Hx].
    + intros i Hge. rewrite J, (Hi x Hx i Hge), (Hi y Hy i Hge), (Hi z Hz i Hge).
      reflexivity.
Qed.

Lemma ch_maj_bitwise_witness :
  zkwasm_sha256_ch 0xF0F0F0F0 0xAAAAAAAA 0x55555555 =
  Z.lor (Z.land 0xF0F0F0F0 0xAAAAAAAA) (Z.land (not32 0xF0F0F0F0) 0x55555555).
Proof.
  refine (proj1 (proj2 (proj2
            (ch_maj_bitwise 0xF0F0F0F0 0xAAAAAAAA 0x55555555 _ _ _))));
    unfold is_u32; lia.
Defined.

Lemma u32_testbit_high w i : is_u32 w -> 32 <= i -> Z.testbit w i = false.
Proof.
  intros Hw Hi. rewrite <- (Z.mod_small w (2 ^ 32)) by exact Hw.
  apply Z.mod_pow2_bits_high. lia.
Qed.

Lemma ROTR32_range x n : is_u32 x -> 0 < n < 32 -> is_u32 (ROTR32 x n).
Proof.
  intros Hx Hn. rewrite (ROTR32_ROTR x n Hx Hn). unfold FIPS.ROTR. apply u32_range.
Qed.

Lemma ROTR32_testbit x n i :
  is_u32 x -> 0 < n < 32 -> 0 <= i < 32 ->
  Z.testbit (ROTR32 x n) i = Z.testbit x ((i + n) mod 32).
Proof.
  intros Hx Hn Hi. rewrite (ROTR32_ROTR x n Hx Hn). unfold FIPS.ROTR, u32.
  rewrite Z.mod_pow2_bits_low by lia.
  rewrite Z.lor_spec, Z.shiftr_spec, Z.shiftl_spec by lia.
  destruct (Z.lt_ge_cases (i + n) 32) as [Hlt|Hge].
  - rewrite (Z.mod_small (i + n) 32) by lia.
    rewrite (Z.testbit_neg_r x (i - (32 - n))) by lia.
    apply orb_false_r.
  - rewrite (u32_testbit_high x (i + n) Hx Hge).
    replace ((i + n) mod 32) with (i - (32 - n))
      by (Z.div_mod_to_equations; lia).
    reflexivity.
Qed.

(** Property X11 (rotation).  On a 32-bit word and for [0 < n < 32],
    [ROTR32(x, n)] is a 32-bit word whose bit [i] is bit [(i + n) mod 32] of
    [x], and [ROTR32(ROTR32(x, n), 32 - n)] is [x]. *)
Theorem ROTR32_rotates (x n : Z) :
  is_u32 x -> 0 < n < 32 ->
  is_u32 (ROTR32 x n) /\
  (forall i, 0 <= i < 32 -> Z.testbit (ROTR32 x n) i = Z.testbit x ((i + n) mod 32)) /\
  ROTR32 (ROTR32 x n) (32 - n) = x.
Proof.
  intros Hx Hn.
  pose proof (ROTR32_range x n Hx Hn) as Hr.
  split; [exact Hr|]. split; [intros i Hi; apply ROTR32_testbit; assumption|].
  assert (Hn' : 0 < 32 - n < 32) by lia.
  apply Z.bits_inj'. intros i Hi.
  destruct (Z.lt_ge_cases i 32) as [Hlt|Hge].
  - rewrite (ROTR32_testbit _ _ i Hr Hn') by lia.
    rewrite (ROTR32_testbit x n _ Hx Hn) by (apply Z.mod_pos_bound; lia).
    f_equal. Z.div_mod_to_equations. lia.
  - rewrite (u32_testbit_high _ i (ROTR32_range _ _ Hr Hn') Hge).
    rewrite (u32_testbit_high x i Hx Hge). reflexivity.
Qed.

Lemma ROTR32_rotates_witness : ROTR32 (ROTR32 0x12345678 7) (32 - 7) = 0x12345678.
Proof.
  refine (proj2 (proj2 (ROTR32_rotates 0x12345678 7 _ _))).
  - unfold is_u32. lia.
  - lia.
Defined.

(** ** Reuse of the context *)

Lemma fold_process_block_length Bs : forall h,
  List.length h = 8%nat ->
  List.length (fold_left sha256_process_block Bs h) = 8%nat.
Proof.
  induction Bs as [|B Bs IH]; intros h L; [exact L|].
  rewrite fold_left_cons. apply IH. apply process_block_length.
Qed.

(** [Hash_Final] leaves the storage of the context in its shape. *)
Lemma Hash_Final_ctx_ok c :
  ctx_ok c -> 0 <= digest_length c <= 32 -> ctx_ok (final_ctx (Hash_Final c)).
Proof.
  intros (Hb & Hh) Hd. rewrite (Hash_Final_run c Hb Hd).
  unfold final_ctx, ctx_ok. cbn [fst snd message hash].
  split.
  - destruct (final_blocks_last c Hb) as (P & LP & EP).
    rewrite EP, length_app, LP, be64_length. reflexivity.
  - rewrite length_map. apply fold_process_block_length. exact Hh.
Qed.

(** Property X12 (digests in sequence).  [SHA256_Digest] leaves the storage
    of the context in its shape, and the next call is not affected by it: of
    two calls in sequence, the second returns the digest and leaves the
    context that it does alone, and the blocks compressed are those of the
    first call followed by those of the second. *)
Theorem digests_in_sequence (m1 m2 : list byte) (c : sha256_ctx) :
  ctx_ok c ->
  Z.of_nat (List.length m1) < 2 ^ 32 -> Z.of_nat (List.length m2) < 2 ^ 32 ->
  let d1 := SHA256_Digest (Z.of_nat (List.length m1)) m1 in
  let d2 := SHA256_Digest (Z.of_nat (List.length m2)) m2 in
  ctx_ok (final_ctx (d1 c)) /\
  result ((d1;; d2) c) = result (d2 c) /\
  final_ctx ((d1;; d2) c) = final_ctx (d2 c) /\
  compressed ((d1;; d2) c) = compressed (d1 c) ++ compressed (d2 c).
Proof.
  intros Hc H1 H2 d1 d2.
  assert (Ok : ctx_ok (final_ctx (d1 c))).
  { unfold d1. rewrite SHA256_Digest_chunks.
    destruct (init_updates_final 256 [m1] c Hc) as (c1 & I & E).
    rewrite E. unfold final_ctx at 1. cbn [fst snd].
    pose proof I as (_ & _ & _ & Hh & Hd & Hb).
    apply Hash_Final_ctx_ok; [|rewrite Hd; lia].
    split; [exact Hb|]. rewrite Hh. unfold chaining_value.
    apply fold_process_block_length. reflexivity. }
  assert (E : (d1;; d2) c =
              (result (d2 (final_ctx (d1 c))), final_ctx (d2 (final_ctx (d1 c))),
               compressed (d1 c) ++ compressed (d2 (final_ctx (d1 c))))).
  { rewrite (bind_run _ _ _ _ _ _ (triple_eta (d1 c))).
    rewrite (triple_eta (d2 (final_ctx (d1 c)))) at 1. reflexivity. }
  assert (I : d2 (final_ctx (d1 c)) = d2 c).
  { unfold d2. apply SHA256_Digest_indep; assumption. }
  rewrite I in E. rewrite E.
  unfold result at 1 3, final_ctx at 2, compressed at 1. cbn [fst snd].
  split; [exact Ok|]. repeat split; reflexivity.
Qed.

Lemma digests_in_sequence_witness :
  result ((SHA256_Digest 3 abc;; SHA256_Digest 0 []) stale_ctx) =
  result (SHA256_Digest 0 [] stale_ctx).
Proof.
  refine (proj1 (proj2 (digests_in_sequence abc [] stale_ctx _ _ _))).
  - split; reflexivity.
  - reflexivity.
  - reflexivity.
Defined.

(** ** The padding determines the message *)

Lemma be64_inj v1 v2 :
  0 <= v1 < 2 ^ 64 -> 0 <= v2 < 2 ^ 64 -> be64 v1 = be64 v2 -> v1 = v2.
Proof.
  intros H1 H2 E. unfold be64 in E.
  apply (f_equal (@rev byte)) in E. rewrite !rev_involutive in E.
  apply (f_equal le_combine) in E. rewrite !le_combine_split in E.
  change (2 ^ (Z.of_nat 8 * 8)) with (2 ^ 64) in E.
  rewrite !Z.mod_small in E by assumption. exact E.
Qed.

Lemma pad_injective m1 m2 :
  Z.of_nat (List.length m1) < 2 ^ 61 -> Z.of_nat (List.length m2) < 2 ^ 61 ->
  Standard.pad m1 = Standard.pad m2 -> m1 = m2.
Proof.
  intros H1 H2 E.
  assert (S : forall m,
            Standard.pad m =
              (m ++ [Byte.x80]
                 ++ repeat Byte.x00 (Z.to_nat ((55 - Z.of_nat (List.length m)) mod 64)))
                ++ be64 (8 * Z.of_nat (List.length m))).
  { intros m. unfold Standard.pad, Standard.padding. rewrite <- !app_assoc. reflexivity. }
  pose proof (f_equal (@List.length byte) E) as EL.
  assert (ES : be64 (8 * Z.of_nat (List.length m1)) = be64 (8 * Z.of_nat (List.length m2))).
  { rewrite (S m1), (S m2) in E.
    rewrite (S m1), (S m2), !(length_app _ (be64 _)), !be64_length in EL.
    apply (f_equal (skipn (List.length
             (m1 ++ [Byte.x80]
                ++ repeat Byte.x00
                     (Z.to_nat ((55 - Z.of_nat (List.length m1)) mod 64)))))) in E.
    rewrite skipn_app_exact in E.
    replace (List.length
               (m1 ++ [Byte.x80]
                  ++ repeat Byte.x00
                       (Z.to_nat ((55 - Z.of_nat (List.length m1)) mod 64))))
      with (List.length
              (m2 ++ [Byte.x80]
                 ++ repeat Byte.x00
                      (Z.to_nat ((55 - Z.of_nat (List.length m2)) mod 64))))
      in E by lia.
    rewrite skipn_app_exact in E. exact E. }
  apply be64_inj in ES; [|lia|lia].
  assert (Len : List.length m1 = List.length m2) by lia.
  apply (f_equal (firstn (List.length m1))) in E.
  unfold Standard.pad in E.
  rewrite firstn_app_exact, Len, firstn_app_exact in E. exact E.
Qed.

(** Property X13 (unambiguous padding).  The blocks that [SHA256_Digest]
    hands to the compression function determine the message: two messages
    for which they are the same, from whatever contexts, are the same
    message. *)
Theorem compressed_blocks_injective (m1 m2 : list byte) (c1 c2 : sha256_ctx) :
  ctx_ok c1 -> ctx_ok c2 ->
  Z.of_nat (List.length m1) < 2 ^ 32 -> Z.of_nat (List.length m2) < 2 ^ 32 ->
  compressed (SHA256_Digest (Z.of_nat (List.length m1)) m1 c1) =
    compressed (SHA256_Digest (Z.of_nat (List.length m2)) m2 c2) ->
  m1 = m2.
Proof.
  intros Hc1 Hc2 H1 H2 E.
  rewrite !SHA256_Digest_chunks in E.
  pose proof (streaming_run 256 [m1] c1 Hc1) as S1.
  pose proof (streaming_run 256 [m2] c2 Hc2) as S2.
  cbn [List.concat] in S1, S2. rewrite app_nil_r in S1, S2.
  rewrite (proj2 (S1 ltac:(lia))), (proj2 (S2 ltac:(lia))) in E.
  apply (f_equal (@List.concat byte)) in E. rewrite !pad_concat in E.
  apply pad_injective; [lia|lia|exact E].
Qed.

Lemma compressed_blocks_injective_witness :
  compressed (SHA256_Digest 3 abc stale_ctx) = compressed (SHA256_Digest 3 abc zero_ctx) /\
  abc = abc.
Proof.
  assert (E : compressed (SHA256_Digest 3 abc stale_ctx) =
              compressed (SHA256_Digest 3 abc zero_ctx)) by (vm_compute; reflexivity).
  split; [exact E|].
  refine (compressed_blocks_injective abc abc stale_ctx zero_ctx _ _ _ _ E).
  - split; reflexivity.
  - split; reflexivity.
  - reflexivity.
  - reflexivity.
Defined.

(** ** The sigma macros *)

Lemma ROTR32_lxor x y n :
  ROTR32 (Z.lxor x y) n = Z.lxor (ROTR32 x n) (ROTR32 y n).
Proof. unfold ROTR32, shl32, u32. bits. Qed.

Lemma sigma_range a b c : is_u32 a -> is_u32 b -> is_u32 c -> is_u32 (Z.lxor (Z.lxor a b) c).
Proof.
  intros Ha Hb Hc.
  assert (E : Z.lxor (Z.lxor a b) c = u32 (Z.lxor (Z.lxor a b) c)).
  { unfold is_u32, u32 in *.
    rewrite <- (Z.mod_small a (2 ^ 32)) at 1 by assumption.
    rewrite <- (Z.mod_small b (2 ^ 32)) at 1 by assumption.
    rewrite <- (Z.mod_small c (2 ^ 32)) at 1 by assumption.
    bits. }
  rewrite E. apply u32_range.
Qed.

Lemma shiftr_range x n : is_u32 x -> 0 <= n -> is_u32 (Z.shiftr x n).
Proof.
  unfold is_u32. intros Hx Hn. rewrite Z.shiftr_div_pow2 by exact Hn.
  pose proof (Z.pow_pos_nonneg 2 n ltac:(lia) Hn) as Hp.
  split.
  - apply Z.div_pos; lia.
  - apply Z.le_lt_trans with x; [|lia].
    apply Z.div_le_upper_bound; nia.
Qed.

(** Property X14 (the sigma macros).  On 32-bit words the four macros
    [zkwasm_sha256_lsigma0/1] and [zkwasm_sha256_ssigma0/1] are the
    functions of FIPS 180 section 4.1.2 (exclusive or of three rotations,
    or of two rotations and a shift), their values are 32-bit words, and
    each distributes over exclusive or. *)
Theorem sigma_macros (x y : Z) :
  is_u32 x -> is_u32 y ->
  (zkwasm_sha256_lsigma0 x = FIPS.Sigma0 x /\
   zkwasm_sha256_lsigma1 x = FIPS.Sigma1 x /\
   zkwasm_sha256_ssigma0 x = FIPS.sigma0 x /\
   zkwasm_sha256_ssigma1 x = FIPS.sigma1 x) /\
  (is_u32 (zkwasm_sha256_lsigma0 x) /\
   is_u32 (zkwasm_sha256_lsigma1 x) /\
   is_u32 (zkwasm_sha256_ssigma0 x) /\
   is_u32 (zkwasm_sha256_ssigma1 x)) /\
  (zkwasm_sha256_lsigma0 (Z.lxor x y) =
     Z.lxor (zkwasm_sha256_lsigma0 x) (zkwasm_sha256_lsigma0 y) /\
   zkwasm_sha256_lsigma1 (Z.lxor x y) =
     Z.lxor (zkwasm_sha256_lsigma1 x) (zkwasm_sha256_lsigma1 y) /\
   zkwasm_sha256_ssigma0 (Z.lxor x y) =
     Z.lxor (zkwasm_sha256_ssigma0 x) (zkwasm_sha256_ssigma0 y) /\
   zkwasm_sha256_ssigma1 (Z.lxor x y) =
     Z.lxor (zkwasm_sha256_ssigma1 x) (zkwasm_sha256_ssigma1 y)).
Proof.
  intros Hx Hy.
  split; [|split].
  - split; [apply lsigma0_Sigma0|split; [apply lsigma1_Sigma1|
      split; [apply ssigma0_sigma0|apply ssigma1_sigma1]]]; exact Hx.
  - unfold zkwasm_sha256_lsigma0, zkwasm_sha256_lsigma1,
      zkwasm_sha256_ssigma0, zkwasm_sha256_ssigma1.
    split; [|split; [|split]]; apply sigma_range;
      first [ apply ROTR32_range; [exact Hx|lia]
            | apply shiftr_range; [exact Hx|lia] ].
  - unfold zkwasm_sha256_lsigma0, zkwasm_sha256_lsigma1,
      zkwasm_sha256_ssigma0, zkwasm_sha256_ssigma1.
    rewrite !ROTR32_lxor, !Z.shiftr_lxor.
    split; [|split; [|split]]; bits.
Qed.

Lemma sigma_macros_witness :
  zkwasm_sha256_ssigma0 (Z.lxor 0x6A09E667 0xBB67AE85) =
  Z.lxor (zkwasm_sha256_ssigma0 0x6A09E667) (zkwasm_sha256_ssigma0 0xBB67AE85).
Proof.
  refine (proj1 (proj2 (proj2 (proj2 (proj2
            (sigma_macros 0x6A09E667 0xBB67AE85 _ _))))));
    unfold is_u32; lia.
Defined.
